(** * VectorSorting: selection sort and quicksort of bid records

    A shallow embedding of [VectorSorting.cpp] and the proofs of its
    specification.

    Conventions of the embedding.
    - A [vector<Bid>] is a [list Bid]; an index is an integer [Z].  The
      element access [bids[i]] is [at_]: it fails with [OutOfBounds] when the
      index is not a position of the vector (undefined behaviour in C++).
    - [size_t] is 64 bits wide.  Its arithmetic and the conversion of an
      [int] to it wrap modulo [2^64] ([to_size_t]); the conversion of a
      [size_t] to [int] wraps to the 32-bit two's complement range
      ([to_int]).  Arithmetic on [int] in the sorts, [begin + end],
      [low + 1], [high - 1], [mid + 1] and [size - 1], wraps to that range
      too, as it does on the machines in use; an overflow is undefined
      behaviour in C++, and here it makes the next access fail: the sum
      [begin + end] of two positions wraps to a negative number.  The loops
      of the loader and of the display are counted by their rounds.
    - The loops of the sorts take fuel.  A run that needs more steps than
      its fuel allows ends in [OutOfFuel]; the theorems give the fuel that
      suffices. *)

From Stdlib Require Import ZArith QArith Strings.String Strings.Ascii.
From Stdlib Require Import Structures.OrderedTypeEx.
From stdpp Require Import base list sorting strings.

Local Open Scope Z_scope.

(** ** Results of a run *)

Inductive result (A : Type) : Type :=
  | Ok (a : A)
  | OutOfBounds
  | OutOfFuel.
Arguments Ok {A} a.
Arguments OutOfBounds {A}.
Arguments OutOfFuel {A}.

#[global] Instance result_ret : MRet result := fun A a => Ok a.

#[global] Instance result_bind : MBind result := fun A B k r =>
  match r with
  | Ok a => k a
  | OutOfBounds => OutOfBounds
  | OutOfFuel => OutOfFuel
  end.

(** ** Machine integers *)

Definition INT_MAX : Z := 2 ^ 31 - 1.

(** Conversion to [size_t]: modulo [2^64]. *)
Definition to_size_t (z : Z) : Z := z mod 2 ^ 64.

(** Conversion to [int]: the 32-bit two's complement value. *)
Definition to_int (z : Z) : Z := (z + 2 ^ 31) mod 2 ^ 32 - 2 ^ 31.

(** ** Doubles

    [Finite q] is the double of value [q], a rational in lowest terms;
    [Finite 0] is the positive zero and [MinusZero] the negative one. *)

Inductive double : Type :=
  | Finite (q : Q)
  | MinusZero
  | Infinity (negative : bool)
  | NaN.

(** The exponent of the leading bit of [n / d], for [n] and [d] positive. *)
Definition leading_exponent (n d : Z) : Z :=
  let e := Z.log2 n - Z.log2 d in
  if (if 0 <=? e then n <? d * 2 ^ e else n * 2 ^ (- e) <? d)
  then e - 1 else e.

(** [n / d] rounded to an integer: to the nearest, and to the even one of
    two that are as near. *)
Definition round_nearest_even (n d : Z) : Z :=
  let q := n / d in
  let r := n mod d in
  match 2 * r ?= d with
  | Lt => q
  | Gt => q + 1
  | Eq => if Z.even q then q else q + 1
  end.

(** The double nearest to the rational [a >= 0], with the sign given (IEEE
    754 binary64, rounding to nearest, ties to even): 53 bits from the
    leading bit on, no bit below [2^-1074], infinity from [2^1024] on. *)
Definition round_double (negative : bool) (a : Q) : double :=
  let n := Qnum a in
  let d := Z.pos (Qden a) in
  if n <=? 0 then (if negative then MinusZero else Finite 0)
  else
    let p := Z.max (leading_exponent n d - 52) (-1074) in
    let m :=
      if 0 <=? p then round_nearest_even n (d * 2 ^ p)
      else round_nearest_even (n * 2 ^ (- p)) d in
    if m =? 0 then (if negative then MinusZero else Finite 0)
    else if 1024 <=? Z.log2 m + p then Infinity negative
    else
      let s := if negative then - m else m in
      Finite (Qred (if 0 <=? p then inject_Z (s * 2 ^ p)
                    else Qmake s (Z.to_pos (2 ^ (- p))))).

(** The double nearest to a rational of either sign. *)
Definition double_of_Q (q : Q) : double :=
  round_double (Qnum q <? 0) (Qmake (Z.abs (Qnum q)) (Qden q)).

(** The sign bit of a double, and its value when it is finite. *)
Definition sign_bit (x : double) : bool :=
  match x with
  | Finite q => Qnum q <? 0
  | MinusZero => true
  | Infinity negative => negative
  | NaN => false
  end.

Definition finite_value (x : double) : Q :=
  match x with
  | Finite q => q
  | _ => 0
  end.

(** [x / y] on doubles: a NaN for [0 / 0] and for the quotient of two
    infinities, an infinity when a number that is not zero is divided by
    zero, and the double nearest to the quotient otherwise. *)
Definition double_div (x y : double) : double :=
  let negative := xorb (sign_bit x) (sign_bit y) in
  match x, y with
  | NaN, _ | _, NaN => NaN
  | Infinity _, Infinity _ => NaN
  | Infinity _, _ => Infinity negative
  | _, Infinity _ => if negative then MinusZero else Finite 0
  | _, _ =>
      let a := finite_value x in
      let b := finite_value y in
      if Qnum b =? 0 then (if Qnum a =? 0 then NaN else Infinity negative)
      else
        let q := (a / b)%Q in
        round_double negative (Qmake (Z.abs (Qnum q)) (Qden q))
  end.

(** ** Bid records *)

Record Bid : Type := mkBid {
  bidId : string;
  title : string;
  fund : string;
  amount : double
}.

(** [Bid() : amount(0.0)] *)
Definition Bid_default : Bid :=
  {| bidId := EmptyString; title := EmptyString; fund := EmptyString;
     amount := Finite 0 |}.

(** ** Vector access *)

Definition size (bids : list Bid) : Z := Z.of_nat (length bids).

(** [bids[i]] *)
Definition at_ (bids : list Bid) (i : Z) : result Bid :=
  if i <? 0 then OutOfBounds
  else match bids !! Z.to_nat i with
       | Some b => Ok b
       | None => OutOfBounds
       end.

(** [swap(bids[i], bids[j])] *)
Definition swap (bids : list Bid) (i j : Z) : result (list Bid) :=
  bi ← at_ bids i;
  bj ← at_ bids j;
  Ok (<[Z.to_nat j := bi]> (<[Z.to_nat i := bj]> bids)).

(** ** partition *)

(** [while (bids[low].title < pivot) low++;] *)
Fixpoint scan_low (fuel : nat) (bids : list Bid) (pivot : string) (low : Z)
  : result Z :=
  match fuel with
  | O => OutOfFuel
  | S fuel' =>
      b ← at_ bids low;
      if String.ltb (title b) pivot
      then scan_low fuel' bids pivot (to_int (low + 1))
      else Ok low
  end.

(** [while (pivot < bids[high].title) high--;] *)
Fixpoint scan_high (fuel : nat) (bids : list Bid) (pivot : string) (high : Z)
  : result Z :=
  match fuel with
  | O => OutOfFuel
  | S fuel' =>
      b ← at_ bids high;
      if String.ltb pivot (title b)
      then scan_high fuel' bids pivot (to_int (high - 1))
      else Ok high
  end.

(** The [while (true)] loop of [partition]. *)
Fixpoint partition_loop (fuel : nat) (bids : list Bid) (pivot : string)
    (low high : Z) : result (list Bid * Z) :=
  match fuel with
  | O => OutOfFuel
  | S fuel' =>
      low' ← scan_low fuel' bids pivot low;
      high' ← scan_high fuel' bids pivot high;
      if high' <=? low' then Ok (bids, high')
      else
        bids' ← swap bids low' high';
        partition_loop fuel' bids' pivot (to_int (low' + 1))
          (to_int (high' - 1))
  end.

Definition partition (fuel : nat) (bids : list Bid) (begin end_ : Z)
  : result (list Bid * Z) :=
  p ← at_ bids (to_int (begin + end_) ÷ 2);
  partition_loop fuel bids (title p) begin end_.

(** ** quickSort *)

Fixpoint quickSort (fuel : nat) (bids : list Bid) (begin end_ : Z)
  : result (list Bid) :=
  if begin <? end_ then
    match fuel with
    | O => OutOfFuel
    | S fuel' =>
        '(bids1, mid) ← partition fuel' bids begin end_;
        bids2 ← quickSort fuel' bids1 begin mid;
        quickSort fuel' bids2 (to_int (mid + 1)) end_
    end
  else Ok bids.

(** The call of the driver: [quickSort(bids, 0, bids.size() - 1)].  The
    subtraction is on [size_t]; the result is passed as an [int]. *)
Definition quickSort_all (fuel : nat) (bids : list Bid) : result (list Bid) :=
  quickSort fuel bids 0 (to_int (to_size_t (size bids - 1))).

(** ** selectionSort *)

(** The inner loop [for (size_t j = ...; j < size; j++)], from [j] on. *)
Fixpoint find_min (fuel : nat) (bids : list Bid) (size_ : Z) (j : Z)
    (minIndex : Z) : result Z :=
  match fuel with
  | O => OutOfFuel
  | S fuel' =>
      if j <? to_size_t size_ then
        bj ← at_ bids j;
        bm ← at_ bids minIndex;
        let minIndex' :=
          if String.ltb (title bj) (title bm) then to_int j else minIndex in
        find_min fuel' bids size_ (to_size_t (j + 1)) minIndex'
      else Ok minIndex
  end.

(** The outer loop [for (size_t pos = ...; pos < size - 1; pos++)], from
    [pos] on. *)
Fixpoint selection_loop (fuel : nat) (bids : list Bid) (size_ : Z) (pos : Z)
  : result (list Bid) :=
  match fuel with
  | O => OutOfFuel
  | S fuel' =>
      if pos <? to_size_t (to_int (size_ - 1)) then
        minIndex ← find_min fuel' bids size_ (to_size_t (pos + 1)) (to_int pos);
        bids' ← swap bids pos minIndex;
        selection_loop fuel' bids' size_ (to_size_t (pos + 1))
      else Ok bids
  end.

Definition selectionSort (fuel : nat) (bids : list Bid) : result (list Bid) :=
  selection_loop fuel bids (to_int (size bids)) 0.

(** ** strToDouble *)

(** [str.erase(remove(str.begin(), str.end(), ch), str.end())] *)
Fixpoint erase_all (ch : ascii) (str : string) : string :=
  match str with
  | EmptyString => EmptyString
  | String c rest =>
      if Ascii.eqb c ch then erase_all ch rest
      else String c (erase_all ch rest)
  end.

(** [str.c_str()] as a C function reads it: the characters before the first
    NUL. *)
Fixpoint c_str (str : string) : string :=
  match str with
  | EmptyString => EmptyString
  | String c rest =>
      if Ascii.eqb c Ascii.zero then EmptyString else String c (c_str rest)
  end.

(** [atof] is the C library's.  It is modelled from its definition in the C
    standard (7.22.1.3, [strtod] in the C locale): leading white space is
    skipped, then the longest prefix of the form sign, decimal digits with an
    optional point and an optional exponent (or a hexadecimal constant, or
    inf, or nan) is converted; whatever follows is ignored, and zero is
    returned when there is no such prefix.  The number read is rounded to the
    nearest double, as the libraries for IEEE 754 machines do. *)
Module libc.

Definition code (c : ascii) : Z := Z.of_N (N_of_ascii c).

Definition isspace (c : ascii) : bool :=
  (code c =? 32) || ((9 <=? code c) && (code c <=? 13)).

Definition digit (c : ascii) : option Z :=
  if (48 <=? code c) && (code c <=? 57) then Some (code c - 48) else None.

Definition xdigit (c : ascii) : option Z :=
  if (48 <=? code c) && (code c <=? 57) then Some (code c - 48)
  else if (97 <=? code c) && (code c <=? 102) then Some (code c - 87)
  else if (65 <=? code c) && (code c <=? 70) then Some (code c - 55)
  else None.

Definition tolower (c : ascii) : ascii :=
  if (65 <=? code c) && (code c <=? 90)
  then ascii_of_N (N_of_ascii c + 32) else c.

Fixpoint skip_space (s : string) : string :=
  match s with
  | String c rest => if isspace c then skip_space rest else s
  | EmptyString => s
  end.

(** [word] is a prefix of [s], letter case ignored ([word] in lower case). *)
Fixpoint prefix_nocase (word s : string) : bool :=
  match word, s with
  | EmptyString, _ => true
  | String w word', String c s' =>
      Ascii.eqb w (tolower c) && prefix_nocase word' s'
  | String _ _, EmptyString => false
  end.

(** A run of digits: the value read onto [acc], the number of digits on
    top of [n], and the rest. *)
Fixpoint digits (val : ascii -> option Z) (base : Z) (s : string)
    (acc n : Z) : Z * Z * string :=
  match s with
  | String c rest =>
      match val c with
      | Some d => digits val base rest (acc * base + d) (n + 1)
      | None => (acc, n, s)
      end
  | EmptyString => (acc, n, s)
  end.

(** An optional sign: whether it is a minus, and the rest. *)
Definition sign (s : string) : bool * string :=
  match s with
  | String c rest =>
      if Ascii.eqb c "-" then (true, rest)
      else if Ascii.eqb c "+" then (false, rest)
      else (false, s)
  | EmptyString => (false, s)
  end.

(** Digits with an optional point, at least one digit in all: the digits
    read as one integer, the number of digits after the point, the rest. *)
Definition mantissa (val : ascii -> option Z) (base : Z) (s : string)
  : option (Z * Z * string) :=
  let '(m1, n1, r1) := digits val base s 0 0 in
  match r1 with
  | String c r =>
      if Ascii.eqb c "." then
        let '(m2, n2, r2) := digits val base r m1 0 in
        if n1 + n2 =? 0 then None else Some (m2, n2, r2)
      else if n1 =? 0 then None else Some (m1, 0, r1)
  | EmptyString => if n1 =? 0 then None else Some (m1, 0, r1)
  end.

(** The optional exponent part: the letter [e], an optional sign and at
    least one decimal digit; 0 when there is none. *)
Definition exponent (e : ascii) (s : string) : Z :=
  match s with
  | String c rest =>
      if Ascii.eqb (tolower c) e then
        let '(neg, rest') := sign rest in
        let '(x, n, _) := digits digit 10 rest' 0 0 in
        if n =? 0 then 0 else if neg : bool then - x else x
      else 0
  | EmptyString => 0
  end.

Definition decimal_constant (s : string) : option Q :=
  match mantissa digit 10 s with
  | Some (m, nfrac, rest) =>
      Some (inject_Z m * Qpower 10 (exponent "e" rest - nfrac))%Q
  | None => None
  end.

Definition hexadecimal_constant (s : string) : option Q :=
  match s with
  | String z (String x rest) =>
      if Ascii.eqb z "0" && Ascii.eqb (tolower x) "x" then
        match mantissa xdigit 16 rest with
        | Some (m, nfrac, rest') =>
            Some (inject_Z m * Qpower 2 (exponent "p" rest' - 4 * nfrac))%Q
        | None => None
        end
      else None
  | _ => None
  end.

Definition atof (s : string) : double :=
  let '(neg, s') := sign (skip_space s) in
  if prefix_nocase "inf" s' then Infinity neg
  else if prefix_nocase "nan" s' then NaN
  else match hexadecimal_constant s' with
       | Some q => round_double neg q
       | None =>
           match decimal_constant s' with
           | Some q => round_double neg q
           | None => Finite 0
           end
       end.

End libc.

Definition strToDouble (str : string) (ch : ascii) : double :=
  libc.atof (c_str (erase_all ch str)).

(** ** loadBids *)

(** [CSVparser.hpp] is not part of the sources at hand.  The loader is
    modelled over the operations it calls on it, each of which may throw a
    [csv::Error]. *)
Module csv.

Record Error : Type := mkError { what : string }.

Inductive throws (A : Type) : Type :=
  | Return (a : A)
  | Throw (e : Error).
Arguments Return {A} a.
Arguments Throw {A} e.

Class Parser : Type := {
  File : Type;
  (** [csv::Parser(csvPath)] *)
  new : string -> throws File;
  (** [file.rowCount()] *)
  rowCount : File -> Z;
  (** [file[i][k]] *)
  cell : File -> Z -> Z -> throws string
}.

End csv.

(** A line written to [cout] or to [cerr]. *)
Inductive event : Type :=
  | Cout (line : string)
  | Cerr (line : string).

Section loader.
Context {P : csv.Parser}.

(** The body of the loop: one record from row [i]. *)
Definition read_row (file : csv.File) (i : Z) : csv.throws Bid :=
  match csv.cell file i 1 with
  | csv.Throw e => csv.Throw e
  | csv.Return id =>
  match csv.cell file i 0 with
  | csv.Throw e => csv.Throw e
  | csv.Return t =>
  match csv.cell file i 8 with
  | csv.Throw e => csv.Throw e
  | csv.Return f =>
  match csv.cell file i 4 with
  | csv.Throw e => csv.Throw e
  | csv.Return a =>
      csv.Return {| bidId := id; title := t; fund := f;
                    amount := strToDouble a "$" |}
  end end end end.

(** The loop inside [try], with [n] rows to go from row [i]: the vector
    when the loop ends, and the error that ended it, if any. *)
Fixpoint load_rows (n : nat) (file : csv.File) (i : Z) (bids : list Bid)
  : list Bid * option csv.Error :=
  match n with
  | O => (bids, None)
  | S n' =>
      match read_row file i with
      | csv.Return bid => load_rows n' file (i + 1) (bids ++ [bid])
      | csv.Throw e => (bids, Some e)
      end
  end.

(** The lines written, and the vector returned or the exception that
    leaves the function. *)
Definition loadBids (csvPath : string) : list event * csv.throws (list Bid) :=
  let out := [Cout ("Loading CSV file " ++ csvPath)] in
  match csv.new csvPath with
  | csv.Throw e => (out, csv.Throw e)
  | csv.Return file =>
      match load_rows (Z.to_nat (csv.rowCount file)) file 0 [] with
      | (bids, None) => (out, csv.Return bids)
      | (bids, Some e) =>
          (out ++ [Cerr ("Error loading CSV: " ++ csv.what e)],
           csv.Return bids)
      end
  end.

End loader.

(** ** displayBid and main *)

(** An operand of [<<] on [cout]; how a number is laid out is the stream's
    business. *)
Inductive token : Type :=
  | Str (s : string)
  | Num (z : Z)
  | Dbl (d : double)
  | Endl.

(** What the program writes: a line of the loader, or one output statement
    of the driver. *)
Inductive written : Type :=
  | Loader (e : event)
  | Stmt (ts : list token).

Definition displayBid (bid : Bid) : written :=
  Stmt [Str (bidId bid); Str ": "; Str (title bid); Str " | ";
        Dbl (amount bid); Str " | "; Str (fund bid); Endl].

(** [for (int i = 0; i < bids.size(); ++i) displayBid(bids[i]);] with [n]
    rounds to go from position [i]. *)
Fixpoint display_rows (n : nat) (bids : list Bid) (i : Z)
  : result (list written) :=
  match n with
  | O => Ok []
  | S n' =>
      b ← at_ bids i;
      rest ← display_rows n' bids (i + 1);
      Ok (displayBid b :: rest)
  end.

(** The standard input, as what the extractions [cin >> choice] will find:
    an integer, or a failure.  A failure on input that is no integer stores a
    value (0, or a bound of [int] when the number is too large); a failure at
    the end of the input stores nothing, and that is what an input with
    nothing pending does.  After a failure the stream stays failed, and an
    extraction from a failed stream leaves the variable as it is. *)
Inductive extraction : Type :=
  | Value (n : Z)
  | Failure (stored : option Z).

Inductive istream : Type :=
  | Good (pending : list extraction)
  | Failed.

(** [cin >> choice]: the value of [choice] afterwards, and the stream. *)
Definition extract (cin : istream) (choice : Z) : Z * istream :=
  match cin with
  | Good (Value n :: rest) => (n, Good rest)
  | Good (Failure (Some n) :: _) => (n, Failed)
  | Good (Failure None :: _) => (choice, Failed)
  | Good [] => (choice, Failed)
  | Failed => (choice, Failed)
  end.

(** [csvPath] as the [switch (argc)] sets it; [argc] is the length of
    [argv]. *)
Definition main_csvPath (argv : list string) : string :=
  match argv with
  | [_; path] => path
  | _ => "eBid_Monthly_Sales.csv"
  end.

Definition menu : list written :=
  [Stmt [Str "Menu:"; Endl];
   Stmt [Str "  1. Load Bids"; Endl];
   Stmt [Str "  2. Display All Bids"; Endl];
   Stmt [Str "  3. Selection Sort All Bids"; Endl];
   Stmt [Str "  4. Quick Sort All Bids"; Endl];
   Stmt [Str "  9. Exit"; Endl];
   Stmt [Str "Enter choice: "]].

Definition good_bye : list written := [Stmt [Str "Good bye."; Endl]].

Section driver.
Context {P : csv.Parser}.

(** [clock k] is what the call number [k] of [clock()] returns, and
    [CLOCKS_PER_SEC], a positive constant of [time.h], the ticks in a
    second. *)
Variable clock : nat -> Z.
Variable CLOCKS_PER_SEC : Z.

(** [ticks * 1.0 / CLOCKS_PER_SEC]: the ticks and the constant as doubles,
    divided; the product with [1.0] is the double itself. *)
Definition seconds (ticks : Z) : double :=
  double_div (double_of_Q (inject_Z ticks))
    (double_of_Q (inject_Z CLOCKS_PER_SEC)).

(** The three lines written after a load or a sort. *)
Definition report (n : Z) (what : string) (ticks : Z) : list written :=
  [Stmt [Num n; Str what; Endl];
   Stmt [Str "time: "; Num ticks; Str " clock ticks"; Endl];
   Stmt [Str "time: "; Dbl (seconds ticks); Str " seconds"; Endl]].

(** The [switch (choice)] of the loop, on the vector [bids] and after [k]
    calls of [clock()]: what is written, and the vector and the number of
    calls afterwards, or the exception that leaves [main]. *)
Definition switch (fuel : nat) (csvPath : string) (choice : Z)
    (bids : list Bid) (k : nat)
  : list written * result (csv.throws (list Bid * nat)) :=
  if choice =? 1 then
    match loadBids csvPath with
    | (lines, csv.Throw e) => (Loader <$> lines, Ok (csv.Throw e))
    | (lines, csv.Return bids') =>
        ((Loader <$> lines)
         ++ report (size bids') " bids read" (clock (S k) - clock k),
         Ok (csv.Return (bids', S (S k))))
    end
  else if choice =? 2 then
    match display_rows (length bids) bids 0 with
    | Ok lines => (lines ++ [Stmt [Endl]], Ok (csv.Return (bids, k)))
    | OutOfBounds => ([], OutOfBounds)
    | OutOfFuel => ([], OutOfFuel)
    end
  else if choice =? 3 then
    match selectionSort fuel bids with
    | Ok bids' =>
        (report (size bids') " bids sorted" (clock (S k) - clock k),
         Ok (csv.Return (bids', S (S k))))
    | OutOfBounds => ([], OutOfBounds)
    | OutOfFuel => ([], OutOfFuel)
    end
  else if choice =? 4 then
    match quickSort_all fuel bids with
    | Ok bids' =>
        (report (size bids') " bids sorted" (clock (S k) - clock k),
         Ok (csv.Return (bids', S (S k))))
    | OutOfBounds => ([], OutOfBounds)
    | OutOfFuel => ([], OutOfFuel)
    end
  else ([], Ok (csv.Return (bids, k))).

(** The loop [while (choice != 9)] and what follows it: what is written,
    and the value [main] returns, or the exception that ends the program. *)
Fixpoint main_loop (fuel : nat) (csvPath : string) (choice : Z)
    (bids : list Bid) (cin : istream) (k : nat)
  : list written * result (csv.throws Z) :=
  if choice =? 9 then (good_bye, Ok (csv.Return 0))
  else
    match fuel with
    | O => ([], OutOfFuel)
    | S fuel' =>
        let '(choice', cin') := extract cin choice in
        match switch fuel' csvPath choice' bids k with
        | (out, Ok (csv.Return (bids', k'))) =>
            let '(rest, r) := main_loop fuel' csvPath choice' bids' cin' k' in
            (menu ++ out ++ rest, r)
        | (out, Ok (csv.Throw e)) => (menu ++ out, Ok (csv.Throw e))
        | (out, OutOfBounds) => (menu ++ out, OutOfBounds)
        | (out, OutOfFuel) => (menu ++ out, OutOfFuel)
        end
    end.

Definition main (fuel : nat) (argv : list string) (cin : istream)
  : list written * result (csv.throws Z) :=
  main_loop fuel (main_csvPath argv) 0 [] cin 0.

End driver.

(** * Specification *)

(** [s <= t] as the code can test it: not [t < s]. *)
Definition str_le (s t : string) : Prop := String.ltb t s = false.

#[global] Instance str_le_dec s t : Decision (str_le s t).
Proof. unfold str_le. apply _. Defined.

(** Ascending by title. *)
Definition title_le (a b : Bid) : Prop := str_le (title a) (title b).

#[global] Instance title_le_dec a b : Decision (title_le a b).
Proof. unfold title_le. apply _. Defined.

Definition ascending (bids : list Bid) : Prop := StronglySorted title_le bids.

(** The state of the loop of [partition] each time around: the records
    before [low] are not above the pivot, those after [high] not below it,
    and each inner scan has a record that stops it inside the range. *)
Record partition_inv (bids : list Bid) (pivot : string)
    (begin end_ low high : Z) : Prop := {
  inv_range : 0 <= begin /\ end_ < size bids /\ begin <= low /\ high <= end_ /\
    end_ <= INT_MAX;
  inv_left : forall i b, begin <= i < low -> at_ bids i = Ok b ->
    str_le (title b) pivot;
  inv_right : forall i b, high < i <= end_ -> at_ bids i = Ok b ->
    str_le pivot (title b);
  inv_stop_low : exists k b, low <= k <= high + 1 /\ k <= end_ /\
    (k < end_ \/ high < end_) /\ at_ bids k = Ok b /\ str_le pivot (title b);
  inv_stop_high : exists k b, low - 1 <= k <= high /\ begin <= k /\
    at_ bids k = Ok b /\ str_le (title b) pivot
}.

(** What [partition] leaves behind. *)
Record partition_post (bids bids' : list Bid) (pivot : string)
    (begin end_ h : Z) : Prop := {
  post_split : begin <= h < end_;
  post_size : size bids' = size bids;
  post_perm : bids' ≡ₚ bids;
  post_outside : forall i, i < begin \/ end_ < i -> at_ bids' i = at_ bids i;
  post_inside : forall i, begin <= i <= end_ ->
    exists j, begin <= j <= end_ /\ at_ bids' i = at_ bids j;
  post_left : forall i b, begin <= i <= h -> at_ bids' i = Ok b ->
    str_le (title b) pivot;
  post_right : forall i b, h < i <= end_ -> at_ bids' i = Ok b ->
    str_le pivot (title b)
}.

(** What [quickSort] leaves behind: the records of the range, in ascending
    order, and the rest of the vector as it was. *)
Record quickSort_post (bids bids' : list Bid) (begin end_ : Z) : Prop := {
  qs_size : size bids' = size bids;
  qs_perm : bids' ≡ₚ bids;
  qs_outside : forall i, i < begin \/ end_ < i -> at_ bids' i = at_ bids i;
  qs_inside : forall i, begin <= i <= end_ ->
    exists j, begin <= j <= end_ /\ at_ bids' i = at_ bids j;
  qs_sorted : forall i j bi bj, begin <= i < j -> j <= end_ ->
    at_ bids' i = Ok bi -> at_ bids' j = Ok bj -> title_le bi bj
}.

(** [m] is the first position of [pos .. j-1] that holds the least title of
    these positions. *)
Definition first_min (bids : list Bid) (pos j m : Z) : Prop :=
  forall i bi bm, pos <= i < j -> at_ bids i = Ok bi -> at_ bids m = Ok bm ->
    title_le bm bi /\ (i < m -> String.ltb (title bm) (title bi) = true).

(** Every record before [pos] is at most every record after it. *)
Definition sorted_prefix (bids : list Bid) (pos : Z) : Prop :=
  forall i j bi bj, 0 <= i < j -> i < pos ->
    at_ bids i = Ok bi -> at_ bids j = Ok bj -> title_le bi bj.

(** ** The records of one title, in their order in the vector *)

Definition with_title (t : string) (bids : list Bid) : list Bid :=
  filter (fun b => title b = t) bids.

(** ** The order of records with equal titles *)

(** [out] keeps the records of every title in the order they have in
    [bids]. *)
Definition stable (bids out : list Bid) : Prop :=
  forall t, with_title t out = with_title t bids.

(** ** Numbers in a string *)

Definition is_digit (c : ascii) : bool :=
  match libc.digit c with Some _ => true | None => false end.

Fixpoint all_digits (s : string) : bool :=
  match s with
  | EmptyString => true
  | String c rest => is_digit c && all_digits rest
  end.

(** The digits of [s] up to the first character that is not one, and the
    rest. *)
Fixpoint span_digits (s : string) : string * string :=
  match s with
  | String c rest =>
      if is_digit c
      then let '(ds, r) := span_digits rest in (String c ds, r)
      else (EmptyString, s)
  | EmptyString => (EmptyString, EmptyString)
  end.

(** The whole of [s] is a decimal number: an optional sign, then digits with
    an optional point among them, at least one digit in all. *)
Definition decimal_number (s : string) : bool :=
  let '(int_part, r) := span_digits (libc.sign s).2 in
  match r with
  | EmptyString => negb (String.eqb int_part EmptyString)
  | String c frac =>
      Ascii.eqb c "." && all_digits frac
      && negb (String.eqb int_part EmptyString
               && String.eqb frac EmptyString)
  end.

(** [s] begins with a number that [atof] converts: after white space and an
    optional sign come a digit, a point and a digit, or inf or nan. *)
Definition starts_number (s : string) : bool :=
  let s' := (libc.sign (libc.skip_space s)).2 in
  match s' with
  | String c rest =>
      is_digit c
      || (Ascii.eqb c "." &&
          match rest with String d _ => is_digit d | EmptyString => false end)
      || libc.prefix_nocase "inf" s' || libc.prefix_nocase "nan" s'
  | EmptyString => false
  end.

(** ** Records and files of the examples *)

Definition bridge : Bid :=
  {| bidId := "001"; title := "Bridge"; fund := "FundA"; amount := Finite 500 |}.

Definition arch : Bid :=
  {| bidId := "002"; title := "Arch"; fund := "FundB"; amount := Finite 100 |}.

(** A second record with the title of [bridge]. *)
Definition bridge2 : Bid :=
  {| bidId := "003"; title := "Bridge"; fund := "FundC"; amount := Finite 250 |}.

(** A parser over files held in memory, to run the loader on: a file is
    its data rows, opening a path that is not there throws, and so does
    reading a cell that is not there. *)
Definition memory_parser (files : list (string * list (list string)))
  : csv.Parser := {|
  csv.File := list (list string);
  csv.new path :=
    match list_find (fun f => f.1 = path) files with
    | Some (_, f) => csv.Return f.2
    | None => csv.Throw (csv.mkError ("Failed to open " ++ path))
    end;
  csv.rowCount rows := Z.of_nat (length rows);
  csv.cell rows i k :=
    match (if i <? 0 then None else rows !! Z.to_nat i) with
    | Some row =>
        match (if k <? 0 then None else row !! Z.to_nat k) with
        | Some v => csv.Return v
        | None => csv.Throw (csv.mkError "can't return this value (doesn't exist)")
        end
    | None => csv.Throw (csv.mkError "can't return this row (doesn't exist)")
    end
|}.

Definition example_files : list (string * list (list string)) :=
  let o := EmptyString in
  [("bids.csv",
    [["Bridge"; "001"; o; o; "$500.00"; o; o; o; "FundA"];
     ["Arch"; "002"; o; o; "$100.00"; o; o; o; "FundB"]]);
   ("short.csv",
    [["Bridge"; "001"; o; o; "$500.00"; o; o; o; "FundA"];
     ["Arch"; "002"; o; o; "$100.00"]])].

(** ** Numerals *)

(** The character of the digit [d]. *)
Definition digit_char (d : Z) : ascii := ascii_of_N (Z.to_N (48 + d)).

(** The digits [ds] as characters, in front of [rest]. *)
Fixpoint numeral (ds : list Z) (rest : string) : string :=
  match ds with
  | [] => rest
  | d :: ds' => String (digit_char d) (numeral ds' rest)
  end.

(** The number that the digits [ds] spell, most significant first. *)
Definition numeral_value (ds : list Z) : Z :=
  fold_left (fun acc d => acc * 10 + d) ds 0.

(** A menu choice that has no case in the [switch] and does not end the
    loop. *)
Definition other_choice (c : Z) : Prop :=
  c <> 1 /\ c <> 2 /\ c <> 3 /\ c <> 4 /\ c <> 9.

(** What is pending on the input never makes [choice] 9. *)
Definition no_exit (cin : istream) : Prop :=
  match cin with
  | Good pending =>
      Forall (fun x => x <> Value 9 /\ x <> Failure (Some 9)) pending
  | Failed => True
  end.

(** A clock for the examples. *)
Definition example_clock (k : nat) : Z := 250 * Z.of_nat k.

(** The files of the further examples: one with a row that lacks columns,
    one without rows. *)
Definition short_file : list (list string) :=
  let o := EmptyString in
  [["Bridge"; "001"; o; o; "$500.00"; o; o; o; "FundA"];
   ["Arch"; "002"; o; o; "$100.00"]].

Definition empty_file : list (list string) := [].

Definition example_parser : csv.Parser :=
  memory_parser
    [("bids.csv",
      let o := EmptyString in
      [["Bridge"; "001"; o; o; "$500.00"; o; o; o; "FundA"];
       ["Arch"; "002"; o; o; "$100.00"; o; o; o; "FundB"]]);
     ("short.csv", short_file);
     ("empty.csv", empty_file)].

(** * Proofs *)

(** ** The order on titles *)

Lemma ltb_lt (s t : string) : String.ltb s t = true <-> String_as_OT.lt s t.
Proof.
  unfold String.ltb. rewrite <- String_as_OT.cmp_lt. unfold String_as_OT.cmp.
  destruct (String.compare s t); split; congruence.
Qed.

Lemma ltb_irrefl (s : string) : String.ltb s s = false.
Proof.
  destruct (String.ltb s s) eqn:E; [|done].
  apply ltb_lt in E. by apply String_as_OT.lt_not_eq in E.
Qed.

Lemma ltb_trans (s t u : string) :
  String.ltb s t = true -> String.ltb t u = true -> String.ltb s u = true.
Proof. rewrite !ltb_lt. apply String_as_OT.lt_trans. Qed.

Lemma ltb_asym (s t : string) : String.ltb s t = true -> String.ltb t s = false.
Proof.
  intros H. destruct (String.ltb t s) eqn:E; [|done].
  pose proof (ltb_trans _ _ _ H E) as F. by rewrite ltb_irrefl in F.
Qed.

Lemma ltb_trichotomy (s t : string) :
  String.ltb s t = false -> String.ltb t s = false -> s = t.
Proof.
  unfold String.ltb. rewrite (String.compare_antisym t s).
  destruct (String.compare s t) eqn:E; simpl; try discriminate.
  intros _ _. by apply String.compare_eq_iff.
Qed.

#[global] Instance str_le_refl : Reflexive str_le.
Proof. intros s. apply ltb_irrefl. Qed.

#[global] Instance str_le_trans : Transitive str_le.
Proof.
  intros s t u Hst Htu. unfold str_le in *.
  destruct (String.ltb u s) eqn:Hus; [|done].
  destruct (String.ltb s t) eqn:Hlt.
  - by rewrite (ltb_trans _ _ _ Hus Hlt) in Htu.
  - rewrite (ltb_trichotomy _ _ Hlt Hst) in Hus. congruence.
Qed.

#[global] Instance str_le_antisym : AntiSymm (=) str_le.
Proof. intros s t Hst Hts. by apply ltb_trichotomy. Qed.

Lemma str_lt_le (s t : string) : String.ltb s t = true -> str_le s t.
Proof. apply ltb_asym. Qed.

#[global] Instance title_le_refl : Reflexive title_le.
Proof. intros a. unfold title_le. apply str_le_refl. Qed.

#[global] Instance title_le_trans : Transitive title_le.
Proof. intros a b c. unfold title_le. apply str_le_trans. Qed.

(** ** Vector access *)

Lemma insert_one_perm {A} (l : list A) (j : nat) (a y : A) :
  l !! j = Some y -> y :: <[j:=a]> l ≡ₚ a :: l.
Proof.
  revert j. induction l as [|c l IH]; intros [|j] H; simplify_eq/=.
  - apply perm_swap.
  - rewrite (perm_swap c y), (IH _ H). apply perm_swap.
Qed.

Lemma insert_swap_perm {A} (l : list A) (i j : nat) (x y : A) :
  l !! i = Some x -> l !! j = Some y -> <[j:=x]> (<[i:=y]> l) ≡ₚ l.
Proof.
  revert i j. induction l as [|c l IH]; intros [|i] [|j] Hi Hj; simplify_eq/=.
  - done.
  - by apply insert_one_perm.
  - by apply insert_one_perm.
  - f_equiv. by apply IH.
Qed.

Lemma at_Ok (bids : list Bid) (i : Z) (b : Bid) :
  at_ bids i = Ok b <-> 0 <= i /\ bids !! Z.to_nat i = Some b.
Proof.
  unfold at_. destruct (Z.ltb_spec i 0).
  - split; [done | lia].
  - destruct (bids !! Z.to_nat i) as [c|]; split.
    + by intros [= ->].
    + by intros [_ [= ->]].
    + done.
    + by intros [_ ?].
Qed.

Lemma at_range (bids : list Bid) (i : Z) (b : Bid) :
  at_ bids i = Ok b -> 0 <= i < size bids.
Proof.
  rewrite at_Ok. intros [Hi Hb]. apply lookup_lt_Some in Hb. unfold size. lia.
Qed.

Lemma at_in_range (bids : list Bid) (i : Z) :
  0 <= i < size bids -> exists b, at_ bids i = Ok b.
Proof.
  intros Hi. unfold size in Hi.
  destruct (lookup_lt_is_Some_2 bids (Z.to_nat i)) as [b Hb]; [lia|].
  exists b. apply at_Ok. split; [lia|done].
Qed.

Lemma at_of_nat (bids : list Bid) (n : nat) (b : Bid) :
  at_ bids (Z.of_nat n) = Ok b <-> bids !! n = Some b.
Proof. rewrite at_Ok, Nat2Z.id. intuition lia. Qed.

Lemma swap_in_range (bids : list Bid) (i j : Z) :
  0 <= i < size bids -> 0 <= j < size bids ->
  exists bids', swap bids i j = Ok bids'.
Proof.
  intros Hi Hj. unfold swap.
  destruct (at_in_range bids i Hi) as [bi ->].
  destruct (at_in_range bids j Hj) as [bj ->]. simpl. eauto.
Qed.

Lemma swap_inv (bids bids' : list Bid) (i j : Z) :
  swap bids i j = Ok bids' ->
  exists bi bj, at_ bids i = Ok bi /\ at_ bids j = Ok bj /\
    bids' = <[Z.to_nat j := bi]> (<[Z.to_nat i := bj]> bids).
Proof.
  unfold swap. destruct (at_ bids i) as [bi| |]; simpl; try done.
  destruct (at_ bids j) as [bj| |]; simpl; try done.
  intros [= <-]. eauto.
Qed.

Lemma swap_size (bids bids' : list Bid) (i j : Z) :
  swap bids i j = Ok bids' -> size bids' = size bids.
Proof.
  intros (bi & bj & _ & _ & ->)%swap_inv. unfold size.
  by rewrite !length_insert.
Qed.

Lemma swap_perm (bids bids' : list Bid) (i j : Z) :
  swap bids i j = Ok bids' -> bids' ≡ₚ bids.
Proof.
  intros (bi & bj & Hi & Hj & ->)%swap_inv.
  apply at_Ok in Hi as [_ Hi]. apply at_Ok in Hj as [_ Hj].
  by apply insert_swap_perm.
Qed.

Lemma swap_lookup (bids bids' : list Bid) (i j : Z) (n : nat) :
  swap bids i j = Ok bids' ->
  bids' !! n =
    if decide (n = Z.to_nat j) then bids !! Z.to_nat i
    else if decide (n = Z.to_nat i) then bids !! Z.to_nat j
    else bids !! n.
Proof.
  intros (bi & bj & Hi & Hj & ->)%swap_inv.
  pose proof (at_range _ _ _ Hi). pose proof (at_range _ _ _ Hj).
  apply at_Ok in Hi as [_ Hi]. apply at_Ok in Hj as [_ Hj]. unfold size in *.
  destruct (decide (n = Z.to_nat j)) as [->|Hnj].
  - rewrite list_lookup_insert_eq, Hi; [done|]. rewrite length_insert. lia.
  - rewrite list_lookup_insert_ne by done.
    destruct (decide (n = Z.to_nat i)) as [->|Hni].
    + rewrite list_lookup_insert_eq, Hj; [done|lia].
    + by rewrite list_lookup_insert_ne.
Qed.

Lemma swap_at (bids bids' : list Bid) (i j k : Z) :
  swap bids i j = Ok bids' ->
  at_ bids' k =
    if decide (k = j) then at_ bids i
    else if decide (k = i) then at_ bids j
    else at_ bids k.
Proof.
  intros Hs. pose proof (swap_lookup _ _ _ _ (Z.to_nat k) Hs) as Hl.
  destruct (swap_inv _ _ _ _ Hs) as (bi & bj & Hi & Hj & _).
  pose proof (at_range _ _ _ Hi). pose proof (at_range _ _ _ Hj).
  unfold at_ at 1. destruct (Z.ltb_spec k 0) as [Hk|Hk].
  - rewrite !decide_False by lia. unfold at_.
    by destruct (Z.ltb_spec k 0); [|lia].
  - rewrite Hl. unfold at_.
    destruct (Z.ltb_spec i 0); [lia|]. destruct (Z.ltb_spec j 0); [lia|].
    destruct (Z.ltb_spec k 0); [lia|].
    destruct (decide (k = j)) as [->|?].
    + by rewrite decide_True.
    + rewrite decide_False by lia.
      destruct (decide (k = i)) as [->|?].
      * by rewrite decide_True.
      * by rewrite decide_False by lia.
Qed.

Lemma swap_same (bids : list Bid) (i : Z) (b : Bid) :
  at_ bids i = Ok b -> swap bids i i = Ok bids.
Proof.
  intros Hi. unfold swap. rewrite Hi. simpl.
  apply at_Ok in Hi as [_ Hi]. by rewrite (list_insert_id _ _ _ Hi), (list_insert_id _ _ _ Hi).
Qed.

(** ** Conversions within the range of the indices *)

Lemma to_size_t_small (z : Z) : 0 <= z < 2 ^ 64 -> to_size_t z = z.
Proof. intros. unfold to_size_t. by apply Z.mod_small. Qed.

Lemma to_int_small (z : Z) : - 2 ^ 31 <= z <= INT_MAX -> to_int z = z.
Proof.
  unfold INT_MAX, to_int. intros. rewrite Z.mod_small; lia.
Qed.

(** A sum of two [int]s that is too large wraps to a negative number, and
    so does its half. *)
Lemma to_int_overflow (z : Z) :
  INT_MAX < z <= 2 * INT_MAX -> to_int z ÷ 2 < 0.
Proof.
  unfold INT_MAX, to_int. intros Hz.
  replace ((z + 2 ^ 31) mod 2 ^ 32) with (z + 2 ^ 31 - 2 ^ 32).
  - replace (z + 2 ^ 31 - 2 ^ 32 - 2 ^ 31) with (- (2 ^ 32 - z)) by lia.
    rewrite Z.quot_opp_l by lia.
    assert (1 <= (2 ^ 32 - z) ÷ 2); [|lia].
    apply Z.quot_le_lower_bound; lia.
  - apply Z.mod_unique with (q := 1); lia.
Qed.

Ltac int_lia := unfold INT_MAX in *; lia.

(** ** partition *)

Lemma scan_low_spec (fuel : nat) (bids : list Bid) (pivot : string)
    (low k : Z) (bk : Bid) :
  0 <= low <= k -> k <= INT_MAX ->
  at_ bids k = Ok bk -> String.ltb (title bk) pivot = false ->
  k - low < Z.of_nat fuel ->
  exists low' b', scan_low fuel bids pivot low = Ok low' /\ low <= low' <= k /\
    at_ bids low' = Ok b' /\ String.ltb (title b') pivot = false /\
    forall i b, low <= i < low' -> at_ bids i = Ok b ->
      String.ltb (title b) pivot = true.
Proof.
  intros Hlow Hmax Hk Hbk. revert low Hlow.
  induction fuel as [|fuel IH]; intros low Hlow Hfuel; [lia|].
  pose proof (at_range _ _ _ Hk) as Hkr.
  destruct (at_in_range bids low) as [b Hb]; [lia|].
  simpl. rewrite Hb. simpl.
  destruct (String.ltb (title b) pivot) eqn:Hlt.
  - assert (low <> k) by (intros ->; congruence).
    rewrite to_int_small by int_lia.
    destruct (IH (low + 1)) as (low' & b' & Hrun & Hr & Hb' & Hlt' & Hbelow);
      [lia..|].
    exists low', b'. repeat split; try done; try lia.
    intros i c Hi Hc. destruct (decide (i = low)) as [->|]; [congruence|].
    apply (Hbelow i); [lia|done].
  - exists low, b. repeat split; try done; try lia.
Qed.

Lemma scan_high_spec (fuel : nat) (bids : list Bid) (pivot : string)
    (high k : Z) (bk : Bid) :
  k <= high < size bids -> high <= INT_MAX -> at_ bids k = Ok bk ->
  String.ltb pivot (title bk) = false ->
  high - k < Z.of_nat fuel ->
  exists high' b', scan_high fuel bids pivot high = Ok high' /\
    k <= high' <= high /\
    at_ bids high' = Ok b' /\ String.ltb pivot (title b') = false /\
    forall i b, high' < i <= high -> at_ bids i = Ok b ->
      String.ltb pivot (title b) = true.
Proof.
  intros Hhigh Hmax Hk Hbk. revert high Hhigh Hmax.
  induction fuel as [|fuel IH]; intros high Hhigh Hmax Hfuel; [lia|].
  pose proof (at_range _ _ _ Hk) as Hkr.
  destruct (at_in_range bids high) as [b Hb]; [lia|].
  simpl. rewrite Hb. simpl.
  destruct (String.ltb pivot (title b)) eqn:Hlt.
  - assert (high <> k) by (intros ->; congruence).
    rewrite to_int_small by int_lia.
    destruct (IH (high - 1)) as (high' & b' & Hrun & Hr & Hb' & Hlt' & Habove);
      [lia..|].
    exists high', b'. repeat split; try done; try lia.
    intros i c Hi Hc. destruct (decide (i = high)) as [->|]; [congruence|].
    apply (Habove i); [lia|done].
  - exists high, b. repeat split; try done; try lia.
Qed.

Lemma partition_loop_spec (fuel : nat) (pivot : string) (begin end_ : Z) :
  forall (bids : list Bid) (low high : Z),
  partition_inv bids pivot begin end_ low high ->
  high - low + 3 <= Z.of_nat fuel ->
  exists bids' h, partition_loop fuel bids pivot low high = Ok (bids', h) /\
    partition_post bids bids' pivot begin end_ h.
Proof.
  induction fuel as [|fuel IH]; intros bids low high Hinv Hfuel.
  { destruct Hinv as [_ _ _ (k & b & ? & _) _]. lia. }
  destruct Hinv as [(Hb0 & He & Hbl & Hhe & Hmax) Hleft Hright
    (kl & bl & Hkl & Hkle & Hklend & Hatkl & Hlekl)
    (kh & bh & Hkh & Hkhb & Hatkh & Hlekh)].
  destruct (scan_low_spec fuel bids pivot low kl bl)
    as (low' & bl' & Hsl & Hlr & Hatl' & Hltl' & Hbelow);
    [lia|lia|done|done|lia|].
  destruct (scan_high_spec fuel bids pivot high kh bh)
    as (high' & bh' & Hsh & Hhr & Hath' & Hlth' & Habove);
    [lia|lia|done|done|lia|].
  assert (Hleft' : forall i b, begin <= i < low' -> at_ bids i = Ok b ->
    str_le (title b) pivot).
  { intros i b Hi Hb. destruct (decide (i < low)).
    - apply (Hleft i); [lia|done].
    - apply str_lt_le, (Hbelow i); [lia|done]. }
  assert (Hright' : forall i b, high' < i <= end_ -> at_ bids i = Ok b ->
    str_le pivot (title b)).
  { intros i b Hi Hb. destruct (decide (high < i)).
    - apply (Hright i); [lia|done].
    - apply str_lt_le, (Habove i); [lia|done]. }
  simpl. rewrite Hsl. simpl. rewrite Hsh. simpl.
  destruct (Z.leb_spec high' low') as [Hcross|Hcross].
  - exists bids, high'. split; [done|]. split; try done.
    + lia.
    + eauto.
    + intros i b Hi Hb. destruct (decide (i < low')).
      * apply (Hleft' i); [lia|done].
      * assert (i = high') as -> by lia. congruence.
  - destruct (swap_in_range bids low' high') as [bids' Hswap]; [lia|lia|].
    rewrite Hswap. simpl. rewrite !to_int_small by int_lia.
    destruct (IH bids' (low' + 1) (high' - 1)) as (bids'' & h & Hrun & Hpost).
    + split.
      * rewrite (swap_size _ _ _ _ Hswap). lia.
      * intros i b Hi. rewrite (swap_at _ _ _ _ i Hswap).
        rewrite decide_False by lia.
        destruct (decide (i = low')) as [->|?]; [congruence|].
        apply Hleft'. lia.
      * intros i b Hi. rewrite (swap_at _ _ _ _ i Hswap).
        destruct (decide (i = high')) as [->|?]; [congruence|].
        rewrite decide_False by lia. apply Hright'. lia.
      * exists high', bl'. rewrite (swap_at _ _ _ _ high' Hswap).
        rewrite decide_True by done. repeat split; try done; lia.
      * exists low', bh'. rewrite (swap_at _ _ _ _ low' Hswap).
        rewrite decide_False by lia. rewrite decide_True by done.
        repeat split; try done; lia.
    + lia.
    + exists bids'', h. split; [done|].
      destruct Hpost as [Hsplit Hsize Hperm Hout Hin Hl Hr]. split; try done.
      * by rewrite Hsize, (swap_size _ _ _ _ Hswap).
      * by rewrite Hperm, (swap_perm _ _ _ _ Hswap).
      * intros i Hi. rewrite (Hout i Hi), (swap_at _ _ _ _ i Hswap).
        rewrite !decide_False by lia. done.
      * intros i Hi. destruct (Hin i Hi) as (j & Hj & ->).
        rewrite (swap_at _ _ _ _ j Hswap).
        destruct (decide (j = high')); [exists low'; split; [lia|done]|].
        destruct (decide (j = low')); [exists high'; split; [lia|done]|].
        eauto.
Qed.

Lemma partition_spec (fuel : nat) (bids : list Bid) (begin end_ : Z) :
  0 <= begin < end_ -> end_ < size bids -> begin + end_ <= INT_MAX ->
  end_ - begin + 3 <= Z.of_nat fuel ->
  exists bids' h pivot, partition fuel bids begin end_ = Ok (bids', h) /\
    partition_post bids bids' pivot begin end_ h.
Proof.
  intros Hb He Hsum Hfuel. unfold partition.
  rewrite to_int_small by int_lia.
  assert (begin <= (begin + end_) ÷ 2 < end_) as Hm.
  { rewrite Z.quot_div_nonneg by lia. split.
    - apply Z.div_le_lower_bound; lia.
    - apply Z.div_lt_upper_bound; lia. }
  destruct (at_in_range bids ((begin + end_) ÷ 2)) as [p Hp]; [lia|].
  rewrite Hp. simpl.
  destruct (partition_loop_spec fuel (title p) begin end_ bids begin end_)
    as (bids' & h & Hrun & Hpost); [|lia|by eauto].
  split.
  - int_lia.
  - intros; lia.
  - intros; lia.
  - exists ((begin + end_) ÷ 2), p. repeat split; try done; try lia.
  - exists ((begin + end_) ÷ 2), p. repeat split; try done; try lia.
Qed.

(** ** quickSort *)

(** The sum of the ends of a range inside a vector overflows, and
    [partition] reads in front of the vector. *)
Lemma partition_overflow (fuel : nat) (bids : list Bid) (begin end_ : Z) :
  INT_MAX < begin + end_ <= 2 * INT_MAX ->
  partition fuel bids begin end_ = OutOfBounds.
Proof.
  intros Hsum. unfold partition, at_.
  pose proof (to_int_overflow _ Hsum) as Hneg.
  by destruct (Z.ltb_spec (to_int (begin + end_) ÷ 2) 0); [|lia].
Qed.

(** On a range inside the vector [quickSort] either sorts the range, or,
    when the range ends beyond position [2^30], meets a sum that
    overflows. *)
Lemma quickSort_spec_or_overflow (fuel : nat) :
  forall (bids : list Bid) (begin end_ : Z),
  0 <= begin -> end_ < size bids -> end_ <= INT_MAX ->
  end_ - begin + 4 <= Z.of_nat fuel ->
  (quickSort fuel bids begin end_ = OutOfBounds /\ 2 ^ 30 < end_) \/
  exists bids', quickSort fuel bids begin end_ = Ok bids' /\
    quickSort_post bids bids' begin end_.
Proof.
  induction fuel as [|fuel IH]; intros bids begin end_ Hb He Hmax Hfuel.
  - right. simpl. destruct (Z.ltb_spec begin end_); [lia|].
    exists bids. split; [done|]. split; try done; [eauto|intros; lia].
  - simpl. destruct (Z.ltb_spec begin end_) as [Hlt|Hge]; cycle 1.
    { right. exists bids. split; [done|].
      split; try done; [eauto|intros; lia]. }
    destruct (Z.le_gt_cases (begin + end_) INT_MAX) as [Hsum|Hsum]; cycle 1.
    { left. rewrite partition_overflow by int_lia. split; [done|int_lia]. }
    destruct (partition_spec fuel bids begin end_)
      as (bids1 & h & pivot & -> & [Hh Hs1 Hp1 Hout1 Hin1 Hl1 Hr1]);
      [lia..|].
    simpl.
    destruct (IH bids1 begin h)
      as [[-> Hover]|(bids2 & -> & [Hs2 Hp2 Hout2 Hin2 Hsort2])]; [lia..| |].
    { left. split; [done|lia]. }
    simpl. rewrite to_int_small by int_lia.
    destruct (IH bids2 (h + 1) end_)
      as [[-> Hover]|(bids3 & -> & [Hs3 Hp3 Hout3 Hin3 Hsort3])]; [lia..| |].
    { left. split; [done|lia]. }
    right. exists bids3. split; [done|].
    assert (Hlow : forall i b, begin <= i <= h -> at_ bids3 i = Ok b ->
      str_le (title b) pivot).
    { intros i b Hi. rewrite Hout3 by lia.
      destruct (Hin2 i Hi) as (j & Hj & ->). by apply Hl1. }
    assert (Hhigh : forall i b, h < i <= end_ -> at_ bids3 i = Ok b ->
      str_le pivot (title b)).
    { intros i b Hi. destruct (Hin3 i) as (j & Hj & ->); [lia|].
      rewrite Hout2 by lia. apply Hr1. lia. }
    split.
    + by rewrite Hs3, Hs2.
    + by rewrite Hp3, Hp2.
    + intros i Hi. rewrite Hout3, Hout2, Hout1 by lia. done.
    + intros i Hi. destruct (decide (i <= h)).
      * rewrite Hout3 by lia. destruct (Hin2 i) as (j & Hj & ->); [lia|].
        destruct (Hin1 j) as (k & Hk & ->); [lia|]. eauto.
      * destruct (Hin3 i) as (j & Hj & ->); [lia|]. rewrite Hout2 by lia.
        destruct (Hin1 j) as (k & Hk & ->); [lia|]. eauto.
    + intros i j bi bj Hij Hj Hbi Hbj.
      destruct (decide (j <= h)); [|destruct (decide (h < i))].
      * rewrite Hout3 in Hbi, Hbj by lia. apply (Hsort2 i j); [lia|lia|done..].
      * apply (Hsort3 i j); [lia|lia|done..].
      * unfold title_le. transitivity pivot.
        -- apply (Hlow i); [lia|done].
        -- apply (Hhigh j); [lia|done].
Qed.

Lemma quickSort_spec (fuel : nat) (bids : list Bid) (begin end_ : Z) :
  0 <= begin -> end_ < size bids -> end_ <= 2 ^ 30 ->
  end_ - begin + 4 <= Z.of_nat fuel ->
  exists bids', quickSort fuel bids begin end_ = Ok bids' /\
    quickSort_post bids bids' begin end_.
Proof.
  intros Hb He Hmax Hfuel.
  destruct (quickSort_spec_or_overflow fuel bids begin end_)
    as [[_ Hover]|Hok]; [int_lia..|lia|done].
Qed.

(** ** Ascending order, by positions *)

Lemma ascending_of_at (bids : list Bid) :
  (forall i j bi bj, 0 <= i < j -> at_ bids i = Ok bi -> at_ bids j = Ok bj ->
     title_le bi bj) ->
  ascending bids.
Proof.
  unfold ascending. induction bids as [|a bids IH]; intros H; constructor.
  - apply IH. intros i j bi bj Hij Hi Hj.
    apply (H (i + 1) (j + 1)); [lia|..].
    + apply at_Ok in Hi as [? Hi]. apply at_Ok. split; [lia|].
      by replace (Z.to_nat (i + 1)) with (S (Z.to_nat i)) by lia.
    + apply at_Ok in Hj as [? Hj]. apply at_Ok. split; [lia|].
      by replace (Z.to_nat (j + 1)) with (S (Z.to_nat j)) by lia.
  - apply Forall_lookup. intros n b Hn.
    apply (H 0 (Z.of_nat (S n))); [lia|done|]. by apply at_of_nat.
Qed.

Lemma ascending_at (bids : list Bid) (i j : Z) (bi bj : Bid) :
  ascending bids -> 0 <= i < j -> at_ bids i = Ok bi -> at_ bids j = Ok bj ->
  title_le bi bj.
Proof.
  unfold ascending. intros Hs. revert i j.
  induction Hs as [|a bids Hs IH Ha]; intros i j Hij Hi Hj.
  { by apply at_Ok in Hi as [_ ?]. }
  apply at_Ok in Hi as [? Hi]. apply at_Ok in Hj as [? Hj].
  destruct (Z.to_nat j) as [|nj] eqn:Ej; [lia|]. simpl in Hj.
  destruct (Z.to_nat i) as [|ni] eqn:Ei; simpl in Hi.
  - simplify_eq. rewrite Forall_lookup in Ha. by apply (Ha nj).
  - apply (IH (Z.of_nat ni) (Z.of_nat nj)); [lia|by apply at_of_nat..].
Qed.

Lemma quickSort_all_end (bids : list Bid) :
  size bids <= INT_MAX -> to_int (to_size_t (size bids - 1)) = size bids - 1.
Proof.
  unfold INT_MAX, size. intros H. destruct bids as [|b bids].
  - done.
  - rewrite to_size_t_small, to_int_small; unfold INT_MAX; simpl length in *; lia.
Qed.

Lemma quickSort_post_all (bids out : list Bid) :
  quickSort_post bids out 0 (size bids - 1) ->
  size out = size bids /\ out ≡ₚ bids /\ ascending out.
Proof.
  intros [Hs Hp _ _ Hsort]. repeat split; try done.
  apply ascending_of_at. intros i j bi bj Hij Hi Hj.
  apply (Hsort i j); try done. apply at_range in Hj. lia.
Qed.

Lemma quickSort_all_or_overflow (fuel : nat) (bids : list Bid) :
  size bids <= INT_MAX -> size bids + 3 <= Z.of_nat fuel ->
  (quickSort_all fuel bids = OutOfBounds /\ 2 ^ 30 + 1 < size bids) \/
  exists out, quickSort_all fuel bids = Ok out /\
    size out = size bids /\ out ≡ₚ bids /\ ascending out.
Proof.
  intros HN Hfuel. unfold quickSort_all. rewrite quickSort_all_end by done.
  destruct (quickSort_spec_or_overflow fuel bids 0 (size bids - 1))
    as [[Hrun Hover]|(out & Hrun & Hpost)]; [lia..| |].
  - left. split; [done|lia].
  - right. exists out. split; [done|]. by apply quickSort_post_all.
Qed.

Lemma quickSort_all_spec (fuel : nat) (bids : list Bid) :
  size bids <= 2 ^ 30 + 1 -> size bids + 3 <= Z.of_nat fuel ->
  exists out, quickSort_all fuel bids = Ok out /\
    size out = size bids /\ out ≡ₚ bids /\ ascending out.
Proof.
  intros HN Hfuel.
  destruct (quickSort_all_or_overflow fuel bids) as [[_ Hover]|Hok];
    [int_lia|done|lia|done].
Qed.

(** ** selectionSort *)

Lemma ltb_le_trans (s t u : string) :
  String.ltb s t = true -> str_le t u -> String.ltb s u = true.
Proof.
  intros Hst Htu. destruct (String.ltb s u) eqn:Hsu; [done|].
  assert (str_le t s) as Hts by (by transitivity u).
  unfold str_le in Hts. congruence.
Qed.

Lemma find_min_spec (fuel : nat) (bids : list Bid) (pos : Z) :
  size bids <= INT_MAX ->
  forall j m, 0 <= pos <= m -> m < j <= size bids ->
  size bids - j + 1 <= Z.of_nat fuel ->
  first_min bids pos j m ->
  exists m', find_min fuel bids (size bids) j m = Ok m' /\
    m <= m' < size bids /\ first_min bids pos (size bids) m'.
Proof.
  intros HN. unfold INT_MAX in HN.
  induction fuel as [|fuel IH]; intros j m Hm Hj Hfuel Hfirst; [lia|].
  simpl. rewrite to_size_t_small by lia.
  destruct (Z.ltb_spec j (size bids)) as [Hlt|Hge]; cycle 1.
  { exists m. assert (j = size bids) as -> by lia. split; [done|]. split; [lia|done]. }
  destruct (at_in_range bids j) as [bj Hbj]; [lia|].
  destruct (at_in_range bids m) as [bm Hbm]; [lia|].
  rewrite Hbj, Hbm. simpl. rewrite to_size_t_small by lia.
  destruct (String.ltb (title bj) (title bm)) eqn:Hlt'.
  - rewrite to_int_small by (unfold INT_MAX; lia).
    destruct (IH (j + 1) j) as (m' & Hrun & Hr & Hfirst'); [lia..| |].
    + intros i bi bm' Hi Hbi Hbm'. assert (bm' = bj) as -> by congruence.
      destruct (decide (i = j)) as [->|Hne].
      * assert (bi = bj) as -> by congruence. split; [done|lia].
      * destruct (Hfirst i bi bm) as [Hle _]; [lia|done|done|].
        pose proof (ltb_le_trans _ _ _ Hlt' Hle) as Hlt''.
        split; [by apply str_lt_le|done].
    + exists m'. split; [done|]. split; [lia|done].
  - destruct (IH (j + 1) m) as (m' & Hrun & Hr & Hfirst'); [lia..| |].
    + intros i bi bm' Hi Hbi Hbm'. assert (bm' = bm) as -> by congruence.
      destruct (decide (i = j)) as [->|Hne].
      * assert (bi = bj) as -> by congruence. split; [done|lia].
      * apply (Hfirst i); [lia|done..].
    + exists m'. split; [done|]. split; [lia|done].
Qed.

(** The rule of the outer loop: a property of the vector and the position
    that every pass keeps holds when the loop ends.  A pass exchanges the
    record at [pos] with the first least record from [pos] on. *)
Lemma selection_loop_rule (N : Z) (I : list Bid -> Z -> Prop) :
  1 <= N <= INT_MAX ->
  (forall bids pos m bids', size bids = N -> 0 <= pos < N - 1 ->
     I bids pos -> pos <= m < N -> first_min bids pos N m ->
     swap bids pos m = Ok bids' -> I bids' (pos + 1)) ->
  forall (fuel : nat) (bids : list Bid) (pos : Z),
  size bids = N -> 0 <= pos <= N - 1 -> N - pos + 1 <= Z.of_nat fuel ->
  I bids pos ->
  exists bids', selection_loop fuel bids N pos = Ok bids' /\
    size bids' = N /\ I bids' (N - 1).
Proof.
  intros HN Hpass. unfold INT_MAX in HN.
  induction fuel as [|fuel IH]; intros bids pos Hsize Hpos Hfuel HI; [lia|].
  simpl. rewrite to_int_small, to_size_t_small by int_lia.
  destruct (Z.ltb_spec pos (N - 1)) as [Hlt|Hge]; cycle 1.
  { exists bids. assert (pos = N - 1) as -> by lia. done. }
  rewrite to_size_t_small, to_int_small by (unfold INT_MAX; lia).
  destruct (find_min_spec fuel bids pos) with (j := pos + 1) (m := pos)
    as (m & Hrun & Hm & Hfirst); [unfold INT_MAX; lia|lia..| |].
  { intros i bi bm Hi Hbi Hbm. assert (i = pos) as -> by lia.
    assert (bi = bm) as -> by congruence. split; [done|lia]. }
  rewrite Hsize in Hrun, Hm, Hfirst. rewrite Hrun. simpl.
  destruct (swap_in_range bids pos m) as [bids' Hswap]; [lia..|].
  rewrite Hswap. simpl.
  apply IH; [by rewrite (swap_size _ _ _ _ Hswap)|lia|lia|].
  apply (Hpass bids pos m); try done; lia.
Qed.

Lemma selection_pass_sorted (bids bids' : list Bid) (pos m : Z) :
  0 <= pos -> pos <= m < size bids -> sorted_prefix bids pos ->
  first_min bids pos (size bids) m -> swap bids pos m = Ok bids' ->
  sorted_prefix bids' (pos + 1).
Proof.
  intros Hpos Hm Hsorted Hfirst Hswap i j bi bj Hij Hi.
  rewrite (swap_at _ _ _ _ i Hswap), (swap_at _ _ _ _ j Hswap).
  destruct (decide (i = pos)) as [->|Hne].
  - intros Hbi Hbj.
    assert (at_ bids m = Ok bi) as Hbm.
    { destruct (decide (pos = m)) as [<-|?]; done. }
    destruct (decide (j = m)) as [->|?]; [|rewrite decide_False in Hbj by lia].
    + apply (Hfirst pos); [lia|done..].
    + pose proof (at_range _ _ _ Hbj). apply (Hfirst j); [lia|done..].
  - rewrite !decide_False by lia. intros Hbi Hbj.
    destruct (decide (j = m)) as [->|?]; [|destruct (decide (j = pos)) as [->|?]].
    + apply (Hsorted i pos); [lia|lia|done..].
    + apply (Hsorted i m); [lia|lia|done..].
    + apply (Hsorted i j); [lia|lia|done..].
Qed.

Lemma selectionSort_spec (fuel : nat) (bids : list Bid) :
  1 <= size bids <= INT_MAX -> size bids + 1 <= Z.of_nat fuel ->
  exists out, selectionSort fuel bids = Ok out /\
    size out = size bids /\ out ≡ₚ bids /\ ascending out.
Proof.
  intros HN Hfuel. unfold selectionSort.
  rewrite to_int_small by (unfold INT_MAX in *; lia).
  destruct (selection_loop_rule (size bids)
    (fun b pos => b ≡ₚ bids /\ sorted_prefix b pos) HN) with
    (fuel := fuel) (bids := bids) (pos := 0)
    as (out & Hrun & Hsize & Hperm & Hsorted); [|done|lia|lia| |].
  - intros b pos m b' Hsize Hpos [Hperm Hsorted] Hm Hfirst Hswap. split.
    + by rewrite (swap_perm _ _ _ _ Hswap).
    + apply (selection_pass_sorted b b' pos m); try done; try lia.
      by rewrite Hsize.
  - split; [done|]. intros i j bi bj Hij Hi. lia.
  - exists out. repeat split; try done.
    apply ascending_of_at. intros i j bi bj Hij Hi Hj.
    apply (Hsorted i j); try done. apply at_range in Hj. lia.
Qed.

Lemma selectionSort_ascending_id (fuel : nat) (bids : list Bid) :
  1 <= size bids <= INT_MAX -> size bids + 1 <= Z.of_nat fuel ->
  ascending bids -> selectionSort fuel bids = Ok bids.
Proof.
  intros HN Hfuel Hasc. unfold selectionSort.
  rewrite to_int_small by (unfold INT_MAX in *; lia).
  destruct (selection_loop_rule (size bids) (fun b pos => b = bids) HN) with
    (fuel := fuel) (bids := bids) (pos := 0)
    as (out & Hrun & Hsize & ->); [|done|lia|lia|done|done].
  intros b pos m b' Hsize Hpos -> Hm Hfirst Hswap.
  destruct (at_in_range bids pos) as [bp Hbp]; [lia|].
  destruct (at_in_range bids m) as [bm Hbm]; [lia|].
  destruct (decide (pos = m)) as [<-|Hne].
  - rewrite (swap_same _ _ _ Hbp) in Hswap. congruence.
  - destruct (Hfirst pos bp bm) as [_ Hlt]; [lia|done..|].
    pose proof (ascending_at bids pos m bp bm Hasc) as Hle.
    unfold title_le, str_le in Hle. rewrite Hlt in Hle by lia.
    discriminate Hle; [lia|done..].
Qed.

(** ** Two ascending arrangements of the same records *)

Lemma ascending_titles (bids : list Bid) :
  ascending bids -> StronglySorted str_le (title <$> bids).
Proof. apply StronglySorted_fmap. by intros a b. Qed.

Lemma ascending_titles_unique (out1 out2 : list Bid) :
  out1 ≡ₚ out2 -> ascending out1 -> ascending out2 ->
  title <$> out1 = title <$> out2.
Proof.
  intros Hp H1 H2.
  apply (StronglySorted_unique str_le); [by apply ascending_titles..|].
  by rewrite Hp.
Qed.

Lemma NoDup_titles_inj (bids : list Bid) (a b : Bid) :
  NoDup (title <$> bids) -> a ∈ bids -> b ∈ bids -> title a = title b ->
  a = b.
Proof.
  induction bids as [|c bids IH]; intros Hnd Ha Hb Heq; [by inv Ha|].
  rewrite fmap_cons in Hnd. apply NoDup_cons in Hnd as [Hc Hnd].
  apply elem_of_cons in Ha as [->|Ha], Hb as [->|Hb]; try done.
  - destruct Hc. rewrite Heq. by apply list_elem_of_fmap_2.
  - destruct Hc. rewrite <- Heq. by apply list_elem_of_fmap_2.
  - by apply IH.
Qed.

Lemma ascending_unique (out1 out2 : list Bid) :
  out1 ≡ₚ out2 -> ascending out1 -> ascending out2 ->
  NoDup (title <$> out1) -> out1 = out2.
Proof.
  intros Hp H1 H2 Hnd.
  apply (StronglySorted_unique_strong title_le); try done.
  intros a b Ha Hb Hab Hba. apply (NoDup_titles_inj out1); try done.
  - by rewrite Hp.
  - by apply (anti_symm str_le).
Qed.

Lemma filter_insert_front {A} (P : A -> Prop) `{!forall x, Decision (P x)}
    (l : list A) (j : nat) (a y : A) :
  l !! j = Some y -> ~ P a ->
  (forall k z, (k < j)%nat -> l !! k = Some z -> ~ P z) ->
  filter P (y :: <[j:=a]> l) = filter P l.
Proof.
  revert j. induction l as [|c l IH]; intros [|j] Hy Ha Hbefore; simplify_eq/=.
  - rewrite !filter_cons. by rewrite (decide_False (P:=P a)).
  - assert (~ P c) as Hc by (apply (Hbefore 0%nat); [lia|done]).
    rewrite (filter_cons_False _ c l) by done.
    rewrite <- (IH j) by (try done; intros k z ?; apply (Hbefore (S k)); lia).
    rewrite !filter_cons. rewrite (decide_False (P:=P c)) by done. done.
Qed.

Lemma filter_insert_swap {A} (P : A -> Prop) `{!forall x, Decision (P x)}
    (l : list A) (i j : nat) (x y : A) :
  (i < j)%nat -> l !! i = Some x -> l !! j = Some y ->
  (forall k z, (i <= k < j)%nat -> l !! k = Some z -> ~ P z) ->
  filter P (<[j:=x]> (<[i:=y]> l)) = filter P l.
Proof.
  revert i j. induction l as [|c l IH]; intros [|i] [|j] Hij Hx Hy Hbetween;
    simplify_eq/=; try lia.
  - assert (~ P x) as Hnx by (apply (Hbetween 0%nat); [lia|done]).
    rewrite (filter_cons_False _ x l) by done.
    apply filter_insert_front; try done.
    intros k z ?; apply (Hbetween (S k)); lia.
  - rewrite !filter_cons. rewrite (IH i j); try done; [lia|].
    intros k z ?; apply (Hbetween (S k)); lia.
Qed.

Lemma selection_pass_least (t : string) (bids bids' : list Bid) (pos m : Z) :
  0 <= pos -> pos <= m < size bids ->
  (forall b, b ∈ bids -> str_le t (title b)) ->
  first_min bids pos (size bids) m -> swap bids pos m = Ok bids' ->
  with_title t bids' = with_title t bids.
Proof.
  intros Hpos Hm Hleast Hfirst Hswap.
  destruct (swap_inv _ _ _ _ Hswap) as (bp & bm & Hbp & Hbm & ->).
  destruct (decide (pos = m)) as [<-|Hne].
  { assert (bm = bp) as -> by congruence. apply at_Ok in Hbp as [_ Hbp].
    by rewrite (list_insert_id _ _ _ Hbp), (list_insert_id _ _ _ Hbp). }
  apply filter_insert_swap.
  - lia.
  - by apply at_Ok in Hbp as [_ ?].
  - by apply at_Ok in Hbm as [_ ?].
  - intros k z Hk Hz Htitle.
    destruct (Hfirst (Z.of_nat k) z bm) as [_ Hlt];
      [lia|by apply at_of_nat|done|].
    assert (str_le t (title bm)) as Hle.
    { apply Hleast. apply at_Ok in Hbm as [_ Hbm].
      by eapply list_elem_of_lookup_2. }
    unfold str_le in Hle. rewrite <- Htitle, Hlt in Hle by lia. done.
Qed.

Lemma selectionSort_least_stable (fuel : nat) (bids : list Bid) (t : string) :
  1 <= size bids <= INT_MAX -> size bids + 1 <= Z.of_nat fuel ->
  (forall b, b ∈ bids -> str_le t (title b)) ->
  exists out, selectionSort fuel bids = Ok out /\
    with_title t out = with_title t bids.
Proof.
  intros HN Hfuel Hleast. unfold selectionSort.
  rewrite to_int_small by (unfold INT_MAX in *; lia).
  destruct (selection_loop_rule (size bids)
    (fun b pos => b ≡ₚ bids /\ with_title t b = with_title t bids) HN) with
    (fuel := fuel) (bids := bids) (pos := 0)
    as (out & Hrun & Hsize & Hperm & Hsame); [|done|lia|lia|done|by eauto].
  intros b pos m b' Hsize Hpos [Hperm Hsame] Hm Hfirst Hswap. split.
  - by rewrite (swap_perm _ _ _ _ Hswap).
  - rewrite <- Hsame. apply (selection_pass_least t b b' pos m); try done.
    + lia.
    + by rewrite Hsize.
    + intros c Hc. apply Hleast. by rewrite <- Hperm.
    + by rewrite Hsize.
Qed.

(** ** Fuel

    A run that does not end in [OutOfFuel] gives the same result with any
    larger fuel. *)

Lemma scan_low_fuel (fuel fuel' : nat) (bids : list Bid) (pivot : string)
    (low : Z) :
  (fuel <= fuel')%nat -> scan_low fuel bids pivot low <> OutOfFuel ->
  scan_low fuel' bids pivot low = scan_low fuel bids pivot low.
Proof.
  revert fuel' low. induction fuel as [|fuel IH]; intros fuel' low Hle Hne;
    [done|].
  destruct fuel' as [|fuel']; [lia|]. simpl in *.
  destruct (at_ bids low) as [b| |]; simpl in *; try done.
  destruct (String.ltb _ _); [|done]. apply IH; [lia|done].
Qed.

Lemma scan_high_fuel (fuel fuel' : nat) (bids : list Bid) (pivot : string)
    (high : Z) :
  (fuel <= fuel')%nat -> scan_high fuel bids pivot high <> OutOfFuel ->
  scan_high fuel' bids pivot high = scan_high fuel bids pivot high.
Proof.
  revert fuel' high. induction fuel as [|fuel IH]; intros fuel' high Hle Hne;
    [done|].
  destruct fuel' as [|fuel']; [lia|]. simpl in *.
  destruct (at_ bids high) as [b| |]; simpl in *; try done.
  destruct (String.ltb _ _); [|done]. apply IH; [lia|done].
Qed.

Lemma partition_loop_fuel (fuel fuel' : nat) (bids : list Bid)
    (pivot : string) (low high : Z) :
  (fuel <= fuel')%nat -> partition_loop fuel bids pivot low high <> OutOfFuel ->
  partition_loop fuel' bids pivot low high
  = partition_loop fuel bids pivot low high.
Proof.
  revert fuel' bids low high.
  induction fuel as [|fuel IH]; intros fuel' bids low high Hle Hne; [done|].
  destruct fuel' as [|fuel']; [lia|]. simpl in *.
  rewrite (scan_low_fuel fuel fuel') by
    (try lia; by destruct (scan_low fuel bids pivot low)).
  destruct (scan_low fuel bids pivot low) as [low'| |]; simpl in *; try done.
  rewrite (scan_high_fuel fuel fuel') by
    (try lia; by destruct (scan_high fuel bids pivot high)).
  destruct (scan_high fuel bids pivot high) as [high'| |]; simpl in *;
    try done.
  destruct (high' <=? low'); [done|].
  destruct (swap bids low' high') as [bids'| |]; simpl in *; try done.
  apply IH; [lia|done].
Qed.

Lemma partition_fuel (fuel fuel' : nat) (bids : list Bid) (begin end_ : Z) :
  (fuel <= fuel')%nat -> partition fuel bids begin end_ <> OutOfFuel ->
  partition fuel' bids begin end_ = partition fuel bids begin end_.
Proof.
  unfold partition. intros Hle Hne.
  destruct (at_ bids _) as [p| |]; simpl in *; try done.
  by apply partition_loop_fuel.
Qed.

Lemma quickSort_fuel (fuel fuel' : nat) (bids : list Bid) (begin end_ : Z) :
  (fuel <= fuel')%nat -> quickSort fuel bids begin end_ <> OutOfFuel ->
  quickSort fuel' bids begin end_ = quickSort fuel bids begin end_.
Proof.
  revert fuel' bids begin end_.
  induction fuel as [|fuel IH]; intros fuel' bids begin end_ Hle Hne.
  - simpl in *. destruct fuel'; simpl; by destruct (begin <? end_).
  - destruct fuel' as [|fuel']; [lia|]. simpl in *.
    destruct (begin <? end_); [|done].
    rewrite (partition_fuel fuel fuel') by
      (try lia; by destruct (partition fuel bids begin end_)).
    destruct (partition fuel bids begin end_) as [[bids1 mid]| |];
      simpl in *; try done.
    rewrite (IH fuel' bids1 begin mid) by
      (try lia; by destruct (quickSort fuel bids1 begin mid)).
    destruct (quickSort fuel bids1 begin mid) as [bids2| |]; simpl in *;
      try done.
    apply IH; [lia|done].
Qed.

Lemma find_min_fuel (fuel fuel' : nat) (bids : list Bid) (size_ j m : Z) :
  (fuel <= fuel')%nat -> find_min fuel bids size_ j m <> OutOfFuel ->
  find_min fuel' bids size_ j m = find_min fuel bids size_ j m.
Proof.
  revert fuel' j m. induction fuel as [|fuel IH]; intros fuel' j m Hle Hne;
    [done|].
  destruct fuel' as [|fuel']; [lia|]. simpl in *.
  destruct (j <? to_size_t size_); [|done].
  destruct (at_ bids j) as [bj| |]; simpl in *; try done.
  destruct (at_ bids m) as [bm| |]; simpl in *; try done.
  apply IH; [lia|done].
Qed.

Lemma selection_loop_fuel (fuel fuel' : nat) (bids : list Bid)
    (size_ pos : Z) :
  (fuel <= fuel')%nat -> selection_loop fuel bids size_ pos <> OutOfFuel ->
  selection_loop fuel' bids size_ pos = selection_loop fuel bids size_ pos.
Proof.
  revert fuel' bids pos.
  induction fuel as [|fuel IH]; intros fuel' bids pos Hle Hne; [done|].
  destruct fuel' as [|fuel']; [lia|]. simpl in *.
  destruct (pos <? to_size_t (to_int (size_ - 1))); [|done].
  rewrite (find_min_fuel fuel fuel') by
    (try lia; by destruct (find_min fuel bids size_ _ _)).
  destruct (find_min fuel bids size_ _ _) as [m| |]; simpl in *; try done.
  destruct (swap bids pos m) as [bids'| |]; simpl in *; try done.
  apply IH; [lia|done].
Qed.

(** The result of a run does not depend on the fuel it had. *)
Lemma selectionSort_fuel_eq (f1 f2 : nat) (bids out1 out2 : list Bid) :
  selectionSort f1 bids = Ok out1 -> selectionSort f2 bids = Ok out2 ->
  out1 = out2.
Proof.
  unfold selectionSort. intros H1 H2.
  destruct (Nat.le_ge_cases f1 f2) as [Hle|Hle].
  - rewrite (selection_loop_fuel f1 f2), H1 in H2 by (try done; congruence).
    congruence.
  - rewrite (selection_loop_fuel f2 f1), H2 in H1 by (try done; congruence).
    congruence.
Qed.

Lemma quickSort_all_fuel_eq (f1 f2 : nat) (bids out1 out2 : list Bid) :
  quickSort_all f1 bids = Ok out1 -> quickSort_all f2 bids = Ok out2 ->
  out1 = out2.
Proof.
  unfold quickSort_all. intros H1 H2.
  destruct (Nat.le_ge_cases f1 f2) as [Hle|Hle].
  - rewrite (quickSort_fuel f1 f2), H1 in H2 by (try done; congruence).
    congruence.
  - rewrite (quickSort_fuel f2 f1), H2 in H1 by (try done; congruence).
    congruence.
Qed.

(** What [quickSort] returns is right whatever the fuel it had, also on
    the vectors on which a sum of two positions may overflow. *)
Lemma quickSort_all_Ok (fuel : nat) (bids out : list Bid) :
  size bids <= INT_MAX -> quickSort_all fuel bids = Ok out ->
  size out = size bids /\ out ≡ₚ bids /\ ascending out.
Proof.
  intros HN Hrun.
  destruct (quickSort_all_or_overflow (fuel + Z.to_nat (size bids + 3)) bids)
    as [[Hover _]|(out' & Hrun' & Hpost)]; [done|lia| |].
  - unfold quickSort_all in *.
    rewrite (quickSort_fuel fuel) in Hover by (lia || congruence).
    congruence.
  - by rewrite (quickSort_all_fuel_eq _ _ _ _ _ Hrun Hrun').
Qed.

Lemma at_outside (bids : list Bid) (i : Z) :
  ~ 0 <= i < size bids -> at_ bids i = OutOfBounds.
Proof.
  intros Hi. destruct (at_ bids i) as [b| |] eqn:Hb; [|done|].
  - apply at_range in Hb. lia.
  - unfold at_ in Hb. destruct (i <? 0); [done|].
    by destruct (bids !! Z.to_nat i).
Qed.

(** The scan upwards does not run out of fuel that covers the vector: it
    stops on a record or leaves the vector. *)
Lemma scan_low_ends (fuel : nat) (bids : list Bid) (pivot : string) :
  forall low : Z,
  low <= INT_MAX -> (1 <= fuel)%nat ->
  (0 <= low -> size bids - low < Z.of_nat fuel) ->
  scan_low fuel bids pivot low <> OutOfFuel.
Proof.
  induction fuel as [|fuel IH]; intros low Hmax H1 Hfuel; [lia|]. simpl.
  destruct (decide (0 <= low < size bids)) as [Hlow|Hlow]; cycle 1.
  { by rewrite at_outside. }
  destruct (at_in_range bids low Hlow) as [b ->]. simpl.
  destruct (String.ltb (title b) pivot); [|done].
  destruct (decide (low = INT_MAX)) as [->|Hne].
  - apply IH; [by vm_compute|int_lia|]. by vm_compute.
  - rewrite to_int_small by int_lia. apply IH; lia.
Qed.

Lemma scan_low_reads (fuel : nat) (bids : list Bid) (pivot : string)
    (low low' : Z) :
  scan_low fuel bids pivot low = Ok low' -> 0 <= low < size bids.
Proof.
  destruct fuel as [|fuel]; [done|]. simpl.
  destruct (at_ bids low) as [b| |] eqn:Hb; [|done..].
  intros _. by apply at_range in Hb.
Qed.

Lemma scan_high_reads (fuel : nat) (bids : list Bid) (pivot : string)
    (high high' : Z) :
  scan_high fuel bids pivot high = Ok high' -> 0 <= high < size bids.
Proof.
  destruct fuel as [|fuel]; [done|]. simpl.
  destruct (at_ bids high) as [b| |] eqn:Hb; [|done..].
  intros _. by apply at_range in Hb.
Qed.

(** [partition] called with a [begin] or an [end] that is no position of the
    vector never returns, and reads outside the vector once it has fuel for
    one scan. *)
Lemma partition_outside (fuel : nat) (bids : list Bid) (begin end_ : Z) :
  begin <= INT_MAX -> ~ (0 <= begin < size bids /\ 0 <= end_ < size bids) ->
  (forall r, partition fuel bids begin end_ <> Ok r) /\
  (size bids + 2 <= Z.of_nat fuel ->
   partition fuel bids begin end_ = OutOfBounds).
Proof.
  intros Hmax Hout. unfold partition.
  destruct (decide (0 <= to_int (begin + end_) ÷ 2 < size bids))
    as [Hmid|Hmid]; cycle 1.
  { by rewrite at_outside. }
  destruct (at_in_range bids _ Hmid) as [p ->]. simpl. split.
  - intros r. destruct fuel as [|fuel]; [done|]. simpl.
    destruct (scan_low fuel bids (title p) begin) as [low'| |] eqn:Hlow;
      [|done..]. simpl.
    destruct (scan_high fuel bids (title p) end_) as [high'| |] eqn:Hhigh;
      [|done..].
    apply scan_low_reads in Hlow. apply scan_high_reads in Hhigh. lia.
  - intros Hfuel. destruct fuel as [|fuel]; [unfold size in *; lia|]. simpl.
    pose proof (scan_low_ends fuel bids (title p) begin Hmax) as Hends.
    destruct (scan_low fuel bids (title p) begin) as [low'| |] eqn:Hlow;
      [|done|]; cycle 1.
    { destruct Hends; [unfold size in *; lia|lia|done]. }
    simpl. apply scan_low_reads in Hlow.
    destruct fuel as [|fuel]; [unfold size in *; lia|]. simpl.
    rewrite at_outside by lia. done.
Qed.

(** * The claims *)

(** ** The empty vector *)

Lemma selectionSort_empty (fuel : nat) :
  selectionSort (S (S fuel)) [] = OutOfBounds.
Proof. reflexivity. Qed.

Lemma selectionSort_empty_not_Ok (fuel : nat) (out : list Bid) :
  selectionSort fuel [] <> Ok out.
Proof. destruct fuel as [|[|fuel]]; [done..|by rewrite selectionSort_empty]. Qed.

Lemma selectionSort_nil_from (fuel : nat) (bids : list Bid) :
  3 <= Z.of_nat fuel -> bids = [] -> selectionSort fuel bids = OutOfBounds.
Proof.
  intros Hfuel ->. destruct fuel as [|[|fuel]]; [lia..|].
  apply selectionSort_empty.
Qed.

(** C2.  On the empty vector [quickSort], called as the driver calls it,
    returns at once and leaves the vector empty.  [selectionSort] does not:
    its loop bound [size - 1] is -1, which the comparison with the [size_t]
    position turns into [2^64 - 1], so the body runs and
    [swap(bids[0], bids[0])] reads outside the vector; no amount of fuel makes
    the run end well. *)
Theorem empty_vector_sorts :
  (forall fuel, quickSort_all fuel [] = Ok []) /\
  (forall fuel, selectionSort (S (S fuel)) [] = OutOfBounds) /\
  (forall fuel out, selectionSort fuel [] <> Ok out).
Proof.
  split; [|split].
  - by intros [|fuel].
  - apply selectionSort_empty.
  - apply selectionSort_empty_not_Ok.
Qed.

(** ** Ascending order *)

(** C1.  For a vector of at most [INT_MAX] records and enough fuel:
    [quickSort] over the whole range returns the records ascending by title
    when there are at most [2^30 + 1] of them, so that no sum of two
    positions leaves the range of [int]; [selectionSort] does when the vector
    is not empty.  On the empty vector [selectionSort] reads outside the
    vector. *)
Theorem sorts_ascending (fuel : nat) (bids : list Bid) :
  size bids <= INT_MAX -> size bids + 3 <= Z.of_nat fuel ->
  (size bids <= 2 ^ 30 + 1 ->
   exists out, quickSort_all fuel bids = Ok out /\ ascending out) /\
  (bids <> [] ->
   exists out, selectionSort fuel bids = Ok out /\ ascending out) /\
  (bids = [] -> selectionSort fuel bids = OutOfBounds).
Proof.
  intros HN Hfuel. split; [|split].
  - intros Hq.
    destruct (quickSort_all_spec fuel bids Hq Hfuel) as (out & ? & _ & _ & ?).
    eauto.
  - intros Hne.
    destruct (selectionSort_spec fuel bids) as (out & ? & _ & _ & ?);
      [|lia|by eauto].
    destruct bids; [done|]. unfold size in *. simpl length in *. lia.
  - apply selectionSort_nil_from. unfold size in Hfuel. lia.
Qed.

Lemma sorts_ascending_witness :
  size [bridge; arch] <= INT_MAX /\ size [bridge; arch] + 3 <= Z.of_nat 5 /\
  ((size [bridge; arch] <= 2 ^ 30 + 1 ->
    exists out, quickSort_all 5 [bridge; arch] = Ok out /\ ascending out) /\
   ([bridge; arch] <> [] ->
    exists out, selectionSort 5 [bridge; arch] = Ok out /\ ascending out) /\
   ([bridge; arch] = [] -> selectionSort 5 [bridge; arch] = OutOfBounds)).
Proof.
  assert (size [bridge; arch] <= INT_MAX) as H1 by (vm_compute; discriminate).
  assert (size [bridge; arch] + 3 <= Z.of_nat 5) as H2
    by (vm_compute; discriminate).
  split; [exact H1|]. split; [exact H2|].
  exact (sorts_ascending 5 [bridge; arch] H1 H2).
Defined.

(** ** Length and permutation *)

(** C6.  For a vector of at most [INT_MAX] records and enough fuel:
    [quickSort] over the whole range returns a vector of the same length that
    is a permutation of the input when there are at most [2^30 + 1] records,
    so that no sum of two positions leaves the range of [int];
    [selectionSort] does when the vector is not empty.  On the empty vector
    [selectionSort] reads outside the vector. *)
Theorem sorts_permute (fuel : nat) (bids : list Bid) :
  size bids <= INT_MAX -> size bids + 3 <= Z.of_nat fuel ->
  (size bids <= 2 ^ 30 + 1 ->
   exists out, quickSort_all fuel bids = Ok out /\
     length out = length bids /\ out ≡ₚ bids) /\
  (bids <> [] ->
   exists out, selectionSort fuel bids = Ok out /\
     length out = length bids /\ out ≡ₚ bids) /\
  (bids = [] -> selectionSort fuel bids = OutOfBounds).
Proof.
  intros HN Hfuel. split; [|split].
  - intros Hq.
    destruct (quickSort_all_spec fuel bids Hq Hfuel) as (out & ? & Hs & ? & _).
    exists out. repeat split; try done. unfold size in Hs. lia.
  - intros Hne.
    destruct (selectionSort_spec fuel bids) as (out & ? & Hs & ? & _);
      [|lia|].
    + destruct bids; [done|]. unfold size in *. simpl length in *. lia.
    + exists out. repeat split; try done. unfold size in Hs. lia.
  - apply selectionSort_nil_from. unfold size in Hfuel. lia.
Qed.

Lemma sorts_permute_witness :
  size [bridge; arch] <= INT_MAX /\ size [bridge; arch] + 3 <= Z.of_nat 5 /\
  ((size [bridge; arch] <= 2 ^ 30 + 1 ->
    exists out, quickSort_all 5 [bridge; arch] = Ok out /\
      length out = length [bridge; arch] /\ out ≡ₚ [bridge; arch]) /\
   ([bridge; arch] <> [] ->
    exists out, selectionSort 5 [bridge; arch] = Ok out /\
      length out = length [bridge; arch] /\ out ≡ₚ [bridge; arch]) /\
   ([bridge; arch] = [] -> selectionSort 5 [bridge; arch] = OutOfBounds)).
Proof.
  assert (size [bridge; arch] <= INT_MAX) as H1 by (vm_compute; discriminate).
  assert (size [bridge; arch] + 3 <= Z.of_nat 5) as H2
    by (vm_compute; discriminate).
  split; [exact H1|]. split; [exact H2|].
  exact (sorts_permute 5 [bridge; arch] H1 H2).
Defined.

(** ** A vector that is ascending already *)

(** C4, as stated, fails: two records of one title are ascending, and
    [quickSort] exchanges them, whatever the fuel. *)
Lemma quickSort_changes_ascending :
  ascending [bridge; bridge2] /\
  ~ exists fuel, quickSort_all fuel [bridge; bridge2] = Ok [bridge; bridge2].
Proof.
  split.
  - unfold ascending. repeat constructor.
  - intros [fuel H].
    assert (quickSort_all 5 [bridge; bridge2] = Ok [bridge2; bridge]) as H5
      by reflexivity.
    pose proof (quickSort_all_fuel_eq _ _ _ _ _ H H5). discriminate.
Qed.

(** C4, amended.  For a vector of at most [INT_MAX] records that is
    ascending by title, and enough fuel: [selectionSort] returns a vector
    that is not empty as it was, record for record; [quickSort] over the whole
    range of a vector of at most [2^30 + 1] records, so that no sum of two
    positions leaves the range of [int], returns the same title at every
    position, and the same record at every position when no two records have
    the same title. *)
Theorem sorts_of_ascending (fuel : nat) (bids : list Bid) :
  size bids <= INT_MAX -> size bids + 3 <= Z.of_nat fuel -> ascending bids ->
  (bids <> [] -> selectionSort fuel bids = Ok bids) /\
  (size bids <= 2 ^ 30 + 1 ->
   exists out, quickSort_all fuel bids = Ok out /\
     title <$> out = title <$> bids /\
     (NoDup (title <$> bids) -> out = bids)).
Proof.
  intros HN Hfuel Hasc. split.
  - intros Hne. apply selectionSort_ascending_id; [|lia|done].
    destruct bids; [done|]. unfold size in *. simpl length in *. lia.
  - intros Hq.
    destruct (quickSort_all_spec fuel bids Hq Hfuel)
      as (out & Hrun & _ & Hperm & Hout).
    exists out. split; [done|]. split.
    + by apply ascending_titles_unique.
    + intros Hnd. symmetry. by apply ascending_unique.
Qed.

Lemma sorts_of_ascending_witness :
  size [arch; bridge] <= INT_MAX /\ size [arch; bridge] + 3 <= Z.of_nat 5 /\
  ascending [arch; bridge] /\
  (([arch; bridge] <> [] -> selectionSort 5 [arch; bridge] = Ok [arch; bridge]) /\
   (size [arch; bridge] <= 2 ^ 30 + 1 ->
    exists out, quickSort_all 5 [arch; bridge] = Ok out /\
      title <$> out = title <$> [arch; bridge] /\
      (NoDup (title <$> [arch; bridge]) -> out = [arch; bridge]))).
Proof.
  assert (size [arch; bridge] <= INT_MAX) as H1 by (vm_compute; discriminate).
  assert (size [arch; bridge] + 3 <= Z.of_nat 5) as H2
    by (vm_compute; discriminate).
  assert (ascending [arch; bridge]) as H3 by (repeat constructor).
  split; [exact H1|]. split; [exact H2|]. split; [exact H3|].
  exact (sorts_of_ascending 5 [arch; bridge] H1 H2 H3).
Defined.

(** ** The two sorts on the same vector *)

(** C5, as stated, fails: of two records of one title [selectionSort] keeps
    the order and [quickSort] exchanges them, whatever the fuel. *)
Lemma sorts_differ :
  ~ exists fuel1 fuel2 out,
      selectionSort fuel1 [bridge; bridge2] = Ok out /\
      quickSort_all fuel2 [bridge; bridge2] = Ok out.
Proof.
  intros (fuel1 & fuel2 & out & Hsel & Hqs).
  assert (selectionSort 5 [bridge; bridge2] = Ok [bridge; bridge2]) as Hsel5
    by reflexivity.
  assert (quickSort_all 5 [bridge; bridge2] = Ok [bridge2; bridge]) as Hqs5
    by reflexivity.
  pose proof (selectionSort_fuel_eq _ _ _ _ _ Hsel Hsel5).
  pose proof (quickSort_all_fuel_eq _ _ _ _ _ Hqs Hqs5).
  subst. discriminate.
Qed.

(** C5, amended.  For a vector of at least one and at most [2^30 + 1]
    records, so that no sum of two positions leaves the range of [int], and
    enough fuel, [selectionSort] and [quickSort] over the whole range return
    vectors with the same title at every position, and the same record at
    every position when no two records have the same title. *)
Theorem sorts_agree (fuel : nat) (bids : list Bid) :
  1 <= size bids <= 2 ^ 30 + 1 -> size bids + 3 <= Z.of_nat fuel ->
  exists out1 out2,
    selectionSort fuel bids = Ok out1 /\ quickSort_all fuel bids = Ok out2 /\
    (ascending out1 /\ out1 ≡ₚ bids) /\ (ascending out2 /\ out2 ≡ₚ bids) /\
    title <$> out1 = title <$> out2 /\
    (NoDup (title <$> bids) -> out1 = out2).
Proof.
  intros HN Hfuel.
  destruct (selectionSort_spec fuel bids) as (out1 & Hsel & _ & Hperm1 & Hasc1);
    [int_lia|lia|].
  destruct (quickSort_all_spec fuel bids) as (out2 & Hqs & _ & Hperm2 & Hasc2);
    [lia|done|].
  exists out1, out2. do 4 (split; [done|]).
  assert (out1 ≡ₚ out2) as Hperm by (by rewrite Hperm1, Hperm2). split.
  - by apply ascending_titles_unique.
  - intros Hnd. apply ascending_unique; try done. by rewrite Hperm1.
Qed.

Lemma sorts_agree_witness :
  1 <= size [bridge; arch] <= 2 ^ 30 + 1 /\
  size [bridge; arch] + 3 <= Z.of_nat 5 /\
  exists out1 out2,
    selectionSort 5 [bridge; arch] = Ok out1 /\
    quickSort_all 5 [bridge; arch] = Ok out2 /\
    (ascending out1 /\ out1 ≡ₚ [bridge; arch]) /\
    (ascending out2 /\ out2 ≡ₚ [bridge; arch]) /\
    title <$> out1 = title <$> out2 /\
    (NoDup (title <$> [bridge; arch]) -> out1 = out2).
Proof.
  assert (1 <= size [bridge; arch] <= 2 ^ 30 + 1) as H1
    by (split; vm_compute; discriminate).
  assert (size [bridge; arch] + 3 <= Z.of_nat 5) as H2
    by (vm_compute; discriminate).
  split; [exact H1|]. split; [exact H2|].
  exact (sorts_agree 5 [bridge; arch] H1 H2).
Defined.

(** ** Records with equal titles under selectionSort *)

(** C7, as stated, fails: the exchange that brings [arch] to the front
    carries [bridge] behind [bridge2]. *)
Lemma selectionSort_not_stable :
  ~ exists fuel out,
      selectionSort fuel [bridge; bridge2; arch] = Ok out /\
      stable [bridge; bridge2; arch] out.
Proof.
  intros (fuel & out & Hsel & Hstable).
  assert (selectionSort 5 [bridge; bridge2; arch] = Ok [arch; bridge2; bridge])
    as Hsel5 by reflexivity.
  pose proof (selectionSort_fuel_eq _ _ _ _ _ Hsel Hsel5) as ->.
  specialize (Hstable "Bridge"). vm_compute in Hstable. discriminate.
Qed.

(** C7, amended.  For a vector of at least one and at most [INT_MAX] records
    and enough fuel: the inner scan of [selectionSort] from any position
    returns the first position that holds the least title from there on (the
    strict comparison never replaces the current minimum with an equal one),
    and [selectionSort] keeps the original order among the records that have
    the least title of the vector. *)
Theorem selectionSort_first_minimum (fuel : nat) (bids : list Bid) (t : string) :
  1 <= size bids <= INT_MAX -> size bids + 1 <= Z.of_nat fuel ->
  (forall b, b ∈ bids -> str_le t (title b)) ->
  (forall pos, 0 <= pos < size bids ->
     exists m, find_min fuel bids (size bids) (pos + 1) pos = Ok m /\
       pos <= m < size bids /\ first_min bids pos (size bids) m) /\
  (exists out, selectionSort fuel bids = Ok out /\
     with_title t out = with_title t bids).
Proof.
  intros HN Hfuel Hleast. split.
  - intros pos Hpos.
    apply (find_min_spec fuel bids pos); [lia..|].
    intros i bi bm Hi Hbi Hbm. assert (i = pos) as -> by lia.
    assert (bi = bm) as -> by congruence. split; [done|lia].
  - by apply selectionSort_least_stable.
Qed.

Lemma selectionSort_first_minimum_witness :
  1 <= size [bridge; arch; bridge2; arch] <= INT_MAX /\
  size [bridge; arch; bridge2; arch] + 1 <= Z.of_nat 5 /\
  (forall b, b ∈ [bridge; arch; bridge2; arch] -> str_le "Arch" (title b)) /\
  ((forall pos, 0 <= pos < size [bridge; arch; bridge2; arch] ->
     exists m,
       find_min 5 [bridge; arch; bridge2; arch]
         (size [bridge; arch; bridge2; arch]) (pos + 1) pos = Ok m /\
       pos <= m < size [bridge; arch; bridge2; arch] /\
       first_min [bridge; arch; bridge2; arch] pos
         (size [bridge; arch; bridge2; arch]) m) /\
   (exists out, selectionSort 5 [bridge; arch; bridge2; arch] = Ok out /\
      with_title "Arch" out = with_title "Arch" [bridge; arch; bridge2; arch])).
Proof.
  assert (1 <= size [bridge; arch; bridge2; arch] <= INT_MAX) as H1
    by (split; vm_compute; discriminate).
  assert (size [bridge; arch; bridge2; arch] + 1 <= Z.of_nat 5) as H2
    by (vm_compute; discriminate).
  assert (forall b, b ∈ [bridge; arch; bridge2; arch] ->
            str_le "Arch" (title b)) as H3.
  { intros b Hb. repeat (apply elem_of_cons in Hb as [->|Hb]; [reflexivity|]).
    by apply elem_of_nil in Hb. }
  split; [exact H1|]. split; [exact H2|]. split; [exact H3|].
  exact (selectionSort_first_minimum 5 [bridge; arch; bridge2; arch] "Arch"
           H1 H2 H3).
Defined.

(** ** The split index of partition *)

(** C10.  On a range [begin < end] inside the vector, and with enough fuel:
    when [begin + end] is at most [INT_MAX], [partition] returns a split
    index [h] with [begin <= h < end], so the two ranges [quickSort] goes on
    with are shorter than its own; when the sum is larger, as it may be from
    [2^30 + 2] records on, it overflows to a negative number, and [partition]
    and [quickSort] read in front of the vector.  [quickSort] returns on every
    range inside the vector that ends at position [2^30] or before it, and on
    every range of at most one position. *)
Theorem partition_splits (fuel : nat) (bids : list Bid) (begin end_ : Z) :
  (begin < end_ -> 0 <= begin /\ end_ < size bids) -> end_ <= INT_MAX ->
  end_ - begin + 4 <= Z.of_nat fuel ->
  (begin < end_ -> begin + end_ <= INT_MAX ->
   exists bids' h, partition fuel bids begin end_ = Ok (bids', h) /\
     begin <= h < end_ /\
     h - begin < end_ - begin /\ end_ - (h + 1) < end_ - begin) /\
  (begin < end_ -> INT_MAX < begin + end_ ->
   partition fuel bids begin end_ = OutOfBounds /\
   quickSort fuel bids begin end_ = OutOfBounds) /\
  (end_ <= 2 ^ 30 \/ end_ <= begin ->
   exists out, quickSort fuel bids begin end_ = Ok out).
Proof.
  intros Hrange Hmax Hfuel. split; [|split].
  - intros Hlt Hsum. destruct (Hrange Hlt) as [Hb He].
    destruct (partition_spec fuel bids begin end_)
      as (bids' & h & pivot & Hrun & [Hh _ _ _ _ _ _]); [lia..|].
    exists bids', h. split; [done|]. lia.
  - intros Hlt Hsum. split; [apply partition_overflow; lia|].
    destruct fuel as [|fuel]; [lia|]. simpl.
    destruct (Z.ltb_spec begin end_); [|lia].
    rewrite partition_overflow by lia. done.
  - intros Hend. destruct (Z.lt_ge_cases begin end_) as [Hlt|Hge].
    + destruct (Hrange Hlt) as [Hb He].
      destruct (quickSort_spec fuel bids begin end_) as (out & Hrun & _);
        [lia..|]. eauto.
    + exists bids. destruct fuel; simpl;
        by destruct (Z.ltb_spec begin end_); [lia|].
Qed.

Lemma partition_splits_witness :
  (0 < 2 -> 0 <= 0 /\ 2 < size [bridge; bridge2; arch]) /\ 2 <= INT_MAX /\
  2 - 0 + 4 <= Z.of_nat 6 /\
  ((0 < 2 -> 0 + 2 <= INT_MAX ->
    exists bids' h, partition 6 [bridge; bridge2; arch] 0 2 = Ok (bids', h) /\
      0 <= h < 2 /\ h - 0 < 2 - 0 /\ 2 - (h + 1) < 2 - 0) /\
   (0 < 2 -> INT_MAX < 0 + 2 ->
    partition 6 [bridge; bridge2; arch] 0 2 = OutOfBounds /\
    quickSort 6 [bridge; bridge2; arch] 0 2 = OutOfBounds) /\
   (2 <= 2 ^ 30 \/ 2 <= 0 ->
    exists out, quickSort 6 [bridge; bridge2; arch] 0 2 = Ok out)).
Proof.
  assert (0 < 2 -> 0 <= 0 /\ 2 < size [bridge; bridge2; arch]) as H1
    by (intros _; split; vm_compute; congruence).
  assert (2 <= INT_MAX) as H2 by (vm_compute; discriminate).
  assert (2 - 0 + 4 <= Z.of_nat 6) as H3 by (vm_compute; discriminate).
  split; [exact H1|]. split; [exact H2|]. split; [exact H3|].
  exact (partition_splits 6 [bridge; bridge2; arch] 0 2 H1 H2 H3).
Defined.

(** The least vector on which the sum overflows has [2^30 + 2] records: on
    its last two positions [begin + end] is [2^31 + 1], which an [int] does
    not hold. *)
Example partition_of_last_positions (fuel : nat) :
  size (replicate (Z.to_nat (2 ^ 30 + 2)) bridge) = 2 ^ 30 + 2 /\
  partition fuel (replicate (Z.to_nat (2 ^ 30 + 2)) bridge)
    (2 ^ 30) (2 ^ 30 + 1) = OutOfBounds.
Proof.
  split.
  - unfold size. rewrite length_replicate. apply Z2Nat.id. lia.
  - apply partition_overflow. unfold INT_MAX. lia.
Qed.

(** ** strToDouble *)

(** C3, as stated, fails: with only the dollar sign removed the comma stays,
    and the conversion stops in front of it. *)
Lemma strToDouble_stops_at_comma :
  ~ exists q, strToDouble "$1,200.50" "$" = Finite q /\ (q == 1200.5)%Q.
Proof. intros (q & [= <-] & Hq). vm_compute in Hq. discriminate. Qed.

(** C3, amended.  [strToDouble] of "$1,200.50" with the dollar sign to strip
    returns 1, the digits in front of the comma; of "$1200.50" it returns
    1200.50; and of "1,200" with the comma to strip it returns 1200. *)
Theorem strToDouble_examples :
  strToDouble "$1,200.50" "$" = Finite 1 /\
  (exists q, strToDouble "$1200.50" "$" = Finite q /\ (q == 1200.5)%Q) /\
  strToDouble "1,200" "," = Finite 1200.
Proof.
  split; [reflexivity|]. split; [|reflexivity].
  exists (2401 # 2)%Q. split; reflexivity.
Qed.

Lemma is_digit_digit (c : ascii) : is_digit c = false -> libc.digit c = None.
Proof. unfold is_digit. by destruct (libc.digit c). Qed.

Lemma digits_none (c : ascii) (rest : string) (acc n : Z) :
  is_digit c = false ->
  libc.digits libc.digit 10 (String c rest) acc n = (acc, n, String c rest).
Proof. intros H. simpl. by rewrite (is_digit_digit c H). Qed.

Lemma decimal_constant_none (s : string) :
  match s with
  | String c rest =>
      is_digit c
      || (Ascii.eqb c "." &&
          match rest with String d _ => is_digit d | EmptyString => false end)
  | EmptyString => false
  end = false ->
  libc.decimal_constant s = None.
Proof.
  unfold libc.decimal_constant, libc.mantissa. destruct s as [|c rest]; [done|].
  intros [Hc Hpoint]%orb_false_elim. rewrite (digits_none c rest 0 0 Hc).
  destruct (Ascii.eqb c ".") eqn:Ec; [|done]. simpl in Hpoint.
  destruct rest as [|d rest]; [done|]. by rewrite (digits_none d rest 0 0 Hpoint).
Qed.

Lemma hexadecimal_constant_none (c : ascii) (rest : string) :
  is_digit c = false -> libc.hexadecimal_constant (String c rest) = None.
Proof.
  intros Hc. unfold libc.hexadecimal_constant. destruct rest as [|x rest]; [done|].
  destruct (Ascii.eqb_spec c "0") as [->|]; [done|done].
Qed.

Lemma atof_no_number (s : string) :
  starts_number s = false -> libc.atof s = Finite 0.
Proof.
  unfold starts_number, libc.atof.
  destruct (libc.sign (libc.skip_space s)) as [neg s']. simpl.
  destruct s' as [|c rest]; [done|].
  intros [[Hnum Hinf]%orb_false_elim Hnan]%orb_false_elim.
  rewrite Hinf, Hnan.
  pose proof Hnum as [Hc _]%orb_false_elim.
  rewrite (hexadecimal_constant_none c rest Hc).
  by rewrite (decimal_constant_none (String c rest) Hnum).
Qed.

(** C9, as stated, fails: "12abc" is not a decimal number, and the result is
    the 12 in front, not zero. *)
Lemma strToDouble_prefix_not_zero :
  decimal_number (erase_all "$" "12abc") = false /\
  ~ exists q, strToDouble "12abc" "$" = Finite q /\ (q == 0)%Q.
Proof.
  split; [reflexivity|].
  intros (q & [= <-] & Hq). vm_compute in Hq. discriminate.
Qed.

(** Nor is the result zero for "inf", which is no decimal number either. *)
Example strToDouble_inf :
  decimal_number (erase_all "$" "$inf") = false /\
  strToDouble "$inf" "$" = Infinity false.
Proof. split; reflexivity. Qed.

(** C9, amended.  When what is left of the string once the strip character
    is removed, read up to its first NUL, does not begin with a number (after
    white space and an optional sign: a digit, a point and a digit, or inf or
    nan), and so when it is empty, [strToDouble] returns zero.  It is a total
    function: there is no input on which it raises. *)
Theorem strToDouble_no_number (str : string) (ch : ascii) :
  starts_number (c_str (erase_all ch str)) = false ->
  strToDouble str ch = Finite 0.
Proof. apply atof_no_number. Qed.

Lemma strToDouble_no_number_witness :
  starts_number (c_str (erase_all "$" "$abc")) = false /\
  strToDouble "$abc" "$" = Finite 0.
Proof.
  assert (starts_number (c_str (erase_all "$" "$abc")) = false) as H
    by reflexivity.
  split; [exact H|]. exact (strToDouble_no_number "$abc" "$" H).
Defined.

(** ** loadBids *)

Section loader_proofs.
Context {P : csv.Parser}.

(** The loop of the loader keeps the records of the rows in front of the
    first row that throws. *)
Lemma load_rows_spec (file : csv.File) (n : nat) :
  forall (i : Z) (acc : list Bid),
  exists rows,
    (forall j b, rows !! j = Some b ->
       read_row file (i + Z.of_nat j) = csv.Return b) /\
    ((length rows = n /\ load_rows n file i acc = (acc ++ rows, None)) \/
     ((length rows < n)%nat /\
      exists e, read_row file (i + Z.of_nat (length rows)) = csv.Throw e /\
        load_rows n file i acc = (acc ++ rows, Some e))).
Proof.
  induction n as [|n IH]; intros i acc; simpl.
  - exists []. split; [done|]. left. by rewrite app_nil_r.
  - destruct (read_row file i) as [b|e] eqn:Hrow.
    + destruct (IH (i + 1) (acc ++ [b])) as (rows & Hrows & Hend).
      exists (b :: rows). split.
      * intros [|j] c Hc; simplify_eq/=.
        -- by rewrite Z.add_0_r.
        -- replace (i + Z.of_nat (S j)) with (i + 1 + Z.of_nat j) by lia.
           by apply Hrows.
      * rewrite <- app_assoc in Hend. simpl in Hend.
        destruct Hend as [[Hl Hr]|(Hl & e & He & Hr)]; [left|right].
        -- split; [simpl; lia|done].
        -- split; [simpl; lia|]. exists e. split; [|done]. simpl length.
           by replace (i + Z.of_nat (S (length rows)))
             with (i + 1 + Z.of_nat (length rows)) by lia.
    + exists []. split; [done|]. right. split; [simpl; lia|].
      exists e. simpl. by rewrite Z.add_0_r, app_nil_r.
Qed.

(** An error of a row, thrown inside the [try] block, is reported on [cerr]
    and the records read so far are returned. *)
Lemma loadBids_rows (csvPath : string) (file : csv.File) :
  csv.new csvPath = csv.Return file ->
  exists rows,
    (forall j b, rows !! j = Some b ->
       read_row file (Z.of_nat j) = csv.Return b) /\
    ((length rows = Z.to_nat (csv.rowCount file) /\
      loadBids csvPath
      = ([Cout ("Loading CSV file " ++ csvPath)], csv.Return rows)) \/
     ((length rows < Z.to_nat (csv.rowCount file))%nat /\
      exists e, read_row file (Z.of_nat (length rows)) = csv.Throw e /\
        loadBids csvPath
        = ([Cout ("Loading CSV file " ++ csvPath);
            Cerr ("Error loading CSV: " ++ csv.what e)], csv.Return rows))).
Proof.
  intros Hnew. unfold loadBids. rewrite Hnew.
  destruct (load_rows_spec file (Z.to_nat (csv.rowCount file)) 0 [])
    as (rows & Hrows & Hend).
  exists rows. split; [done|].
  destruct Hend as [[Hl ->]|(Hl & e & He & ->)]; [left|right]; [done|].
  split; [done|]. by exists e.
Qed.

(** C8.  The parser is constructed in front of the [try] block, so an error
    it throws is not caught: it leaves [loadBids] after the first line of
    output, nothing is reported on [cerr] and no vector is returned. *)
Theorem loadBids_constructor_throws (csvPath : string) (e : csv.Error) :
  csv.new csvPath = csv.Throw e ->
  loadBids csvPath = ([Cout ("Loading CSV file " ++ csvPath)], csv.Throw e).
Proof. intros Hnew. unfold loadBids. by rewrite Hnew. Qed.

End loader_proofs.

Lemma loadBids_constructor_throws_witness :
  csv.new (Parser := memory_parser example_files) "missing.csv"
  = csv.Throw (csv.mkError "Failed to open missing.csv") /\
  loadBids (P := memory_parser example_files) "missing.csv"
  = ([Cout "Loading CSV file missing.csv"],
     csv.Throw (csv.mkError "Failed to open missing.csv")).
Proof.
  assert (csv.new (Parser := memory_parser example_files) "missing.csv"
          = csv.Throw (csv.mkError "Failed to open missing.csv")) as H
    by reflexivity.
  split; [exact H|].
  exact (loadBids_constructor_throws (P := memory_parser example_files)
           "missing.csv" (csv.mkError "Failed to open missing.csv") H).
Defined.

(** The scenario of the specification: the rows of Bridge and Arch load in
    file order, and both sorts bring Arch to the front. *)
Example load_and_sort :
  loadBids (P := memory_parser example_files) "bids.csv"
  = ([Cout "Loading CSV file bids.csv"], csv.Return [bridge; arch]) /\
  selectionSort 5 [bridge; arch] = Ok [arch; bridge] /\
  quickSort_all 5 [bridge; arch] = Ok [arch; bridge].
Proof. repeat split; reflexivity. Qed.

(** A row that lacks a column ends the load: the error is reported and the
    rows in front of it are returned. *)
Example load_short_row :
  loadBids (P := memory_parser example_files) "short.csv"
  = ([Cout "Loading CSV file short.csv";
      Cerr "Error loading CSV: can't return this value (doesn't exist)"],
     csv.Return [bridge]).
Proof. reflexivity. Qed.

(** * Further properties of the code *)

(** ** partition and quickSort on a range *)

(** X1.  On a range [begin < end] inside the vector, with [begin + end] at
    most [INT_MAX], [partition] exchanges records of the range only, and
    every record up to the split index it returns is at most every record
    after it. *)
Theorem partition_separates (fuel : nat) (bids : list Bid) (begin end_ : Z) :
  0 <= begin < end_ -> end_ < size bids -> begin + end_ <= INT_MAX ->
  end_ - begin + 3 <= Z.of_nat fuel ->
  exists bids' h, partition fuel bids begin end_ = Ok (bids', h) /\
    size bids' = size bids /\ bids' ≡ₚ bids /\
    (forall i, i < begin \/ end_ < i -> at_ bids' i = at_ bids i) /\
    (forall i j bi bj, begin <= i <= h -> h < j <= end_ ->
       at_ bids' i = Ok bi -> at_ bids' j = Ok bj -> title_le bi bj).
Proof.
  intros Hb He Hsum Hfuel.
  destruct (partition_spec fuel bids begin end_ Hb He Hsum Hfuel)
    as (bids' & h & pivot & Hrun & [Hh Hs Hp Hout Hin Hl Hr]).
  exists bids', h. do 4 (split; [done|]).
  intros i j bi bj Hi Hj Hbi Hbj. unfold title_le. transitivity pivot.
  - by apply (Hl i).
  - by apply (Hr j).
Qed.

Lemma partition_separates_witness :
  0 <= 0 < 2 /\ 2 < size [bridge; bridge2; arch] /\ 0 + 2 <= INT_MAX /\
  2 - 0 + 3 <= Z.of_nat 5 /\
  exists bids' h, partition 5 [bridge; bridge2; arch] 0 2 = Ok (bids', h) /\
    size bids' = size [bridge; bridge2; arch] /\
    bids' ≡ₚ [bridge; bridge2; arch] /\
    (forall i, i < 0 \/ 2 < i ->
       at_ bids' i = at_ [bridge; bridge2; arch] i) /\
    (forall i j bi bj, 0 <= i <= h -> h < j <= 2 ->
       at_ bids' i = Ok bi -> at_ bids' j = Ok bj -> title_le bi bj).
Proof.
  assert (0 <= 0 < 2) as H1 by lia.
  assert (2 < size [bridge; bridge2; arch]) as H2 by (vm_compute; reflexivity).
  assert (0 + 2 <= INT_MAX) as Hs by (vm_compute; discriminate).
  assert (2 - 0 + 3 <= Z.of_nat 5) as H3 by (vm_compute; discriminate).
  split; [exact H1|]. split; [exact H2|]. split; [exact Hs|].
  split; [exact H3|].
  exact (partition_separates 5 [bridge; bridge2; arch] 0 2 H1 H2 Hs H3).
Defined.

(** X2.  [partition] reads [bids[begin]] and [bids[end]] before anything
    else is decided.  When one of them is no position of the vector it never
    returns, whatever the fuel, and with fuel for one scan of the vector the
    run ends in a read outside the vector. *)
Theorem partition_needs_positions (fuel : nat) (bids : list Bid)
    (begin end_ : Z) :
  begin <= INT_MAX -> ~ (0 <= begin < size bids /\ 0 <= end_ < size bids) ->
  (forall r, partition fuel bids begin end_ <> Ok r) /\
  (size bids + 2 <= Z.of_nat fuel ->
   partition fuel bids begin end_ = OutOfBounds).
Proof.
  intros Hmax Hout.
  pose proof (partition_outside fuel bids begin end_ Hmax Hout) as [Hno Hoob].
  split; [|done]. intros r Hr. by apply (Hno r).
Qed.

Lemma partition_needs_positions_witness :
  0 <= INT_MAX /\
  ~ (0 <= 0 < size [bridge; arch] /\ 0 <= 2 < size [bridge; arch]) /\
  (forall r, partition 5 [bridge; arch] 0 2 <> Ok r) /\
  (size [bridge; arch] + 2 <= Z.of_nat 5 ->
   partition 5 [bridge; arch] 0 2 = OutOfBounds).
Proof.
  assert (0 <= INT_MAX) as H1 by (vm_compute; discriminate).
  assert (~ (0 <= 0 < size [bridge; arch] /\ 0 <= 2 < size [bridge; arch]))
    as H2 by (vm_compute; intros [_ [_ H]]; discriminate H).
  split; [exact H1|]. split; [exact H2|].
  exact (partition_needs_positions 5 [bridge; arch] 0 2 H1 H2).
Defined.

(** X3.  [quickSort] has no check of its own: on a range [begin < end] that
    leaves the vector, by a negative begin or by an end beyond the last
    record, it never returns, whatever the fuel, and with fuel for one scan
    of the vector the run ends in a read outside the vector. *)
Theorem quickSort_needs_positions (fuel : nat) (bids : list Bid)
    (begin end_ : Z) :
  begin < end_ -> end_ <= INT_MAX -> ~ (0 <= begin /\ end_ < size bids) ->
  (forall out, quickSort fuel bids begin end_ <> Ok out) /\
  (size bids + 3 <= Z.of_nat fuel ->
   quickSort fuel bids begin end_ = OutOfBounds).
Proof.
  intros Hlt Hmax Hout.
  assert (~ (0 <= begin < size bids /\ 0 <= end_ < size bids)) as Hout'
    by lia.
  split.
  - intros out. destruct fuel as [|fuel]; simpl;
      destruct (Z.ltb_spec begin end_); try lia; [done|].
    destruct (partition_outside fuel bids begin end_) as [Hno _];
      [lia|done|].
    destruct (partition fuel bids begin end_) as [r| |]; [|done..].
    by destruct (Hno r).
  - intros Hfuel. destruct fuel as [|fuel]; [unfold size in *; lia|]. simpl.
    destruct (Z.ltb_spec begin end_); [|lia].
    destruct (partition_outside fuel bids begin end_) as [_ Hoob];
      [lia|done|].
    by rewrite Hoob by lia.
Qed.

Lemma quickSort_needs_positions_witness :
  0 < 2 /\ 2 <= INT_MAX /\ ~ (0 <= 0 /\ 2 < size [bridge; arch]) /\
  (forall out, quickSort 5 [bridge; arch] 0 2 <> Ok out) /\
  (size [bridge; arch] + 3 <= Z.of_nat 5 ->
   quickSort 5 [bridge; arch] 0 2 = OutOfBounds).
Proof.
  assert (0 < 2) as H1 by lia.
  assert (2 <= INT_MAX) as H2 by (vm_compute; discriminate).
  assert (~ (0 <= 0 /\ 2 < size [bridge; arch])) as H3
    by (vm_compute; intros [_ H]; discriminate H).
  split; [exact H1|]. split; [exact H2|]. split; [exact H3|].
  exact (quickSort_needs_positions 5 [bridge; arch] 0 2 H1 H2 H3).
Defined.

(** X4.  [quickSort] on a range inside the vector that ends at position
    [2^30] or before it, so that no sum of two of its positions leaves the
    range of [int], puts the records of the range in ascending order among
    themselves and leaves every record outside the range where it is. *)
Theorem quickSort_sorts_range (fuel : nat) (bids : list Bid) (begin end_ : Z) :
  0 <= begin -> end_ < size bids -> end_ <= 2 ^ 30 ->
  end_ - begin + 4 <= Z.of_nat fuel ->
  exists out, quickSort fuel bids begin end_ = Ok out /\
    size out = size bids /\ out ≡ₚ bids /\
    (forall i, i < begin \/ end_ < i -> at_ out i = at_ bids i) /\
    (forall i j bi bj, begin <= i < j -> j <= end_ ->
       at_ out i = Ok bi -> at_ out j = Ok bj -> title_le bi bj).
Proof.
  intros Hb He Hmax Hfuel.
  destruct (quickSort_spec fuel bids begin end_ Hb He Hmax Hfuel)
    as (out & Hrun & [Hs Hp Hout _ Hsort]).
  by exists out.
Qed.

Lemma quickSort_sorts_range_witness :
  0 <= 1 /\ 2 < size [bridge; bridge2; arch] /\ 2 <= 2 ^ 30 /\
  2 - 1 + 4 <= Z.of_nat 5 /\
  exists out, quickSort 5 [bridge; bridge2; arch] 1 2 = Ok out /\
    size out = size [bridge; bridge2; arch] /\
    out ≡ₚ [bridge; bridge2; arch] /\
    (forall i, i < 1 \/ 2 < i -> at_ out i = at_ [bridge; bridge2; arch] i) /\
    (forall i j bi bj, 1 <= i < j -> j <= 2 ->
       at_ out i = Ok bi -> at_ out j = Ok bj -> title_le bi bj).
Proof.
  assert (0 <= 1) as H1 by lia.
  assert (2 < size [bridge; bridge2; arch]) as H2 by (vm_compute; reflexivity).
  assert (2 <= 2 ^ 30) as Hm by (vm_compute; discriminate).
  assert (2 - 1 + 4 <= Z.of_nat 5) as H3 by (vm_compute; discriminate).
  split; [exact H1|]. split; [exact H2|]. split; [exact Hm|].
  split; [exact H3|].
  exact (quickSort_sorts_range 5 [bridge; bridge2; arch] 1 2 H1 H2 Hm H3).
Defined.

(** ** Sorting again *)

Lemma size_perm (out bids : list Bid) : out ≡ₚ bids -> size out = size bids.
Proof. intros H. unfold size. by rewrite H. Qed.

(** X5.  [selectionSort] changes nothing in a vector that one of the sorts
    has returned: sorting a second time, by selection after selection or by
    selection after quicksort, gives the same vector, record for record.
    [quickSort] returns when the vector has at most [2^30 + 1] records, and
    whenever it returns on a longer one the same holds. *)
Theorem selectionSort_after_sort (fuel : nat) (bids : list Bid) :
  1 <= size bids <= INT_MAX -> size bids + 3 <= Z.of_nat fuel ->
  (exists out, selectionSort fuel bids = Ok out /\
     selectionSort fuel out = Ok out) /\
  (size bids <= 2 ^ 30 + 1 -> exists out, quickSort_all fuel bids = Ok out) /\
  (forall out, quickSort_all fuel bids = Ok out ->
     selectionSort fuel out = Ok out).
Proof.
  intros HN Hfuel. split; [|split].
  - destruct (selectionSort_spec fuel bids) as (out & Hrun & Hs & _ & Hasc);
      [done|lia|].
    exists out. split; [done|].
    apply selectionSort_ascending_id; [by rewrite Hs|rewrite Hs; lia|done].
  - intros Hq.
    destruct (quickSort_all_spec fuel bids) as (out & Hrun & _); [done..|].
    eauto.
  - intros out Hrun.
    destruct (quickSort_all_Ok fuel bids out) as (Hs & _ & Hasc); [lia|done|].
    apply selectionSort_ascending_id; [by rewrite Hs|rewrite Hs; lia|done].
Qed.

Lemma selectionSort_after_sort_witness :
  1 <= size [bridge; arch] <= INT_MAX /\
  size [bridge; arch] + 3 <= Z.of_nat 5 /\
  ((exists out, selectionSort 5 [bridge; arch] = Ok out /\
      selectionSort 5 out = Ok out) /\
   (size [bridge; arch] <= 2 ^ 30 + 1 ->
    exists out, quickSort_all 5 [bridge; arch] = Ok out) /\
   (forall out, quickSort_all 5 [bridge; arch] = Ok out ->
      selectionSort 5 out = Ok out)).
Proof.
  assert (1 <= size [bridge; arch] <= INT_MAX) as H1
    by (split; vm_compute; discriminate).
  assert (size [bridge; arch] + 3 <= Z.of_nat 5) as H2
    by (vm_compute; discriminate).
  split; [exact H1|]. split; [exact H2|].
  exact (selectionSort_after_sort 5 [bridge; arch] H1 H2).
Defined.

(** X6.  The titles a sort returns do not depend on the order the records
    came in: two vectors with the same records, in whatever order and at
    most [2^30 + 1] of them, come out of [quickSort] and of [selectionSort]
    with the same title at every position. *)
Theorem sorted_titles_of_permutation (fuel : nat) (bids1 bids2 : list Bid) :
  bids1 ≡ₚ bids2 -> 1 <= size bids1 <= 2 ^ 30 + 1 ->
  size bids1 + 3 <= Z.of_nat fuel ->
  exists q1 q2 s1 s2,
    quickSort_all fuel bids1 = Ok q1 /\ quickSort_all fuel bids2 = Ok q2 /\
    selectionSort fuel bids1 = Ok s1 /\ selectionSort fuel bids2 = Ok s2 /\
    title <$> q1 = title <$> q2 /\ title <$> s1 = title <$> s2 /\
    title <$> q1 = title <$> s1.
Proof.
  intros Hperm HN Hfuel. pose proof (size_perm _ _ Hperm) as Hsz.
  destruct (quickSort_all_spec fuel bids1) as (q1 & Hq1 & _ & Hp1 & Ha1);
    [lia|done|].
  destruct (quickSort_all_spec fuel bids2) as (q2 & Hq2 & _ & Hp2 & Ha2);
    [lia|lia|].
  destruct (selectionSort_spec fuel bids1) as (s1 & Hs1 & _ & Hp3 & Ha3);
    [int_lia|lia|].
  destruct (selectionSort_spec fuel bids2) as (s2 & Hs2 & _ & Hp4 & Ha4);
    [int_lia|lia|].
  exists q1, q2, s1, s2. do 4 (split; [done|]).
  split; [|split]; apply ascending_titles_unique; try done.
  - by rewrite Hp1, Hp2.
  - by rewrite Hp3, Hp4.
  - by rewrite Hp1, Hp3.
Qed.

Lemma sorted_titles_of_permutation_witness :
  [bridge; arch] ≡ₚ [arch; bridge] /\
  1 <= size [bridge; arch] <= 2 ^ 30 + 1 /\
  size [bridge; arch] + 3 <= Z.of_nat 5 /\
  exists q1 q2 s1 s2,
    quickSort_all 5 [bridge; arch] = Ok q1 /\
    quickSort_all 5 [arch; bridge] = Ok q2 /\
    selectionSort 5 [bridge; arch] = Ok s1 /\
    selectionSort 5 [arch; bridge] = Ok s2 /\
    title <$> q1 = title <$> q2 /\ title <$> s1 = title <$> s2 /\
    title <$> q1 = title <$> s1.
Proof.
  assert ([bridge; arch] ≡ₚ [arch; bridge]) as H0 by apply perm_swap.
  assert (1 <= size [bridge; arch] <= 2 ^ 30 + 1) as H1
    by (split; vm_compute; discriminate).
  assert (size [bridge; arch] + 3 <= Z.of_nat 5) as H2
    by (vm_compute; discriminate).
  split; [exact H0|]. split; [exact H1|]. split; [exact H2|].
  exact (sorted_titles_of_permutation 5 [bridge; arch] [arch; bridge] H0 H1 H2).
Defined.

(** ** strToDouble on numerals *)

Lemma erase_all_app (ch : ascii) (s1 s2 : string) :
  erase_all ch (s1 ++ s2)%string = (erase_all ch s1 ++ erase_all ch s2)%string.
Proof.
  induction s1 as [|c s1 IH]; [done|]. simpl.
  destruct (Ascii.eqb c ch); [done|]. simpl. by rewrite IH.
Qed.

(** X7.  The strip character is removed wherever it stands, also between
    the digits: the result is that of the string without it. *)
Theorem strToDouble_strip_anywhere (s1 s2 : string) (ch : ascii) :
  strToDouble (s1 ++ String ch s2)%string ch = strToDouble (s1 ++ s2)%string ch.
Proof.
  unfold strToDouble. rewrite !erase_all_app. simpl.
  by rewrite Ascii.eqb_refl.
Qed.

Ltac digit_cases d H :=
  let Hd := fresh "Hd" in
  assert (d = 0 \/ d = 1 \/ d = 2 \/ d = 3 \/ d = 4 \/ d = 5 \/ d = 6 \/
          d = 7 \/ d = 8 \/ d = 9) as Hd by lia;
  clear H; repeat destruct Hd as [->|Hd]; try subst d.

Lemma digit_digit_char (d : Z) :
  0 <= d <= 9 -> libc.digit (digit_char d) = Some d.
Proof. intros H. digit_cases d H; reflexivity. Qed.

Lemma is_digit_digit_char (d : Z) : 0 <= d <= 9 -> is_digit (digit_char d) = true.
Proof. intros H. unfold is_digit. by rewrite digit_digit_char. Qed.

Lemma digit_char_plain (d : Z) (s : string) :
  0 <= d <= 9 ->
  Ascii.eqb (digit_char d) Ascii.zero = false /\
  Ascii.eqb (libc.tolower (digit_char d)) "x" = false /\
  libc.skip_space (String (digit_char d) s) = String (digit_char d) s /\
  libc.sign (String (digit_char d) s) = (false, String (digit_char d) s) /\
  libc.prefix_nocase "inf" (String (digit_char d) s) = false /\
  libc.prefix_nocase "nan" (String (digit_char d) s) = false.
Proof. intros H. digit_cases d H; repeat split; reflexivity. Qed.

Lemma digit_char_not (d : Z) (ch : ascii) :
  0 <= d <= 9 -> is_digit ch = false -> Ascii.eqb (digit_char d) ch = false.
Proof.
  intros Hd Hch. destruct (Ascii.eqb_spec (digit_char d) ch) as [<-|]; [|done].
  by rewrite is_digit_digit_char in Hch.
Qed.

Lemma erase_all_numeral (ch : ascii) (ds : list Z) (rest : string) :
  is_digit ch = false -> Forall (fun d => 0 <= d <= 9) ds ->
  erase_all ch (numeral ds rest) = numeral ds (erase_all ch rest).
Proof.
  intros Hch. induction 1 as [|d ds Hd _ IH]; [done|]. simpl.
  by rewrite (digit_char_not d ch Hd Hch), IH.
Qed.

Lemma c_str_numeral (ds : list Z) (rest : string) :
  Forall (fun d => 0 <= d <= 9) ds ->
  c_str (numeral ds rest) = numeral ds (c_str rest).
Proof.
  induction 1 as [|d ds Hd _ IH]; [done|]. simpl.
  destruct (digit_char_plain d rest Hd) as (-> & _). by rewrite IH.
Qed.

Lemma digits_numeral (ds : list Z) (rest : string) :
  Forall (fun d => 0 <= d <= 9) ds ->
  forall acc n,
  libc.digits libc.digit 10 (numeral ds rest) acc n
  = libc.digits libc.digit 10 rest
      (fold_left (fun acc d => acc * 10 + d) ds acc)
      (n + Z.of_nat (length ds)).
Proof.
  induction 1 as [|d ds Hd _ IH]; intros acc n.
  - simpl. by rewrite Z.add_0_r.
  - cbn [numeral libc.digits fold_left length]. rewrite (digit_digit_char d Hd), IH.
    f_equal. lia.
Qed.

Lemma hexadecimal_constant_second (c x : ascii) (s : string) :
  Ascii.eqb (libc.tolower x) "x" = false ->
  libc.hexadecimal_constant (String c (String x s)) = None.
Proof.
  intros H. unfold libc.hexadecimal_constant. by rewrite H, andb_false_r.
Qed.

Lemma atof_numeral (d : Z) (ds1 ds2 : list Z) :
  Forall (fun d => 0 <= d <= 9) (d :: ds1) ->
  Forall (fun d => 0 <= d <= 9) ds2 ->
  libc.atof (numeral (d :: ds1) (String "." (numeral ds2 EmptyString)))
  = round_double false
      (inject_Z (numeral_value ((d :: ds1) ++ ds2))
       * Qpower 10 (0 - (0 + Z.of_nat (length ds2)))).
Proof.
  intros H1 H2. pose proof (Forall_inv H1) as Hd.
  unfold libc.atof. cbn [numeral].
  destruct (digit_char_plain d
    (numeral ds1 (String "." (numeral ds2 EmptyString))) Hd)
    as (_ & _ & -> & -> & -> & ->).
  assert (libc.hexadecimal_constant
    (String (digit_char d) (numeral ds1 (String "." (numeral ds2 EmptyString))))
    = None) as ->.
  { destruct ds1 as [|d' ds1]; cbn [numeral].
    - by apply hexadecimal_constant_second.
    - apply hexadecimal_constant_second.
      apply Forall_inv_tail, Forall_inv in H1.
      by destruct (digit_char_plain d' EmptyString H1) as (_ & -> & _). }
  unfold libc.decimal_constant, libc.mantissa.
  change (String (digit_char d) (numeral ds1 ?r)) with (numeral (d :: ds1) r).
  rewrite (digits_numeral (d :: ds1) _ H1).
  cbn [libc.digits]. change (libc.digit ".") with (@None Z). cbv iota.
  change (Ascii.eqb "." ".") with true. cbv iota.
  rewrite (digits_numeral ds2 _ H2). cbn [libc.digits].
  destruct (Z.eqb_spec (0 + Z.of_nat (length (d :: ds1))
                        + (0 + Z.of_nat (length ds2))) 0) as [Hz|_].
  { simpl length in Hz. lia. }
  cbn [libc.exponent]. unfold numeral_value. by rewrite fold_left_app.
Qed.

(** X8.  An amount written as digits, a point and digits, with the strip
    character in front, converts to the double nearest to the number that the
    digits spell: the digits read as one integer, divided by ten for every
    digit after the point, and rounded, to infinity when it is too large for
    a double.  This holds whatever strip character is chosen, as long as it
    is no digit and not the point. *)
Theorem strToDouble_numeral (ch : ascii) (ds1 ds2 : list Z) :
  ds1 <> [] -> Forall (fun d => 0 <= d <= 9) ds1 ->
  Forall (fun d => 0 <= d <= 9) ds2 ->
  is_digit ch = false -> ch <> "."%char ->
  strToDouble (String ch (numeral ds1 (String "." (numeral ds2 EmptyString))))
    ch
  = round_double false
      (inject_Z (numeral_value (ds1 ++ ds2))
       * Qpower 10 (- Z.of_nat (length ds2))).
Proof.
  intros Hne H1 H2 Hch Hpoint. destruct ds1 as [|d ds1]; [done|].
  replace (- Z.of_nat (length ds2)) with (0 - (0 + Z.of_nat (length ds2)))
    by lia.
  rewrite <- (atof_numeral d ds1 ds2 H1 H2).
  - unfold strToDouble. cbn [erase_all]. rewrite Ascii.eqb_refl.
    rewrite (erase_all_numeral ch _ _ Hch H1). cbn [erase_all].
    assert (Ascii.eqb "." ch = false) as -> by (by apply Ascii.eqb_neq).
    rewrite (erase_all_numeral ch _ _ Hch H2). cbn [erase_all].
    rewrite (c_str_numeral _ _ H1). cbn [c_str].
    change (Ascii.eqb "." Ascii.zero) with false. cbv iota.
    by rewrite (c_str_numeral _ _ H2).
Qed.

Lemma strToDouble_numeral_witness :
  [5; 0; 0] <> [] /\ Forall (fun d => 0 <= d <= 9) [5; 0; 0] /\
  Forall (fun d => 0 <= d <= 9) [2; 5] /\
  is_digit "$" = false /\ "$"%char <> "."%char /\
  strToDouble (String "$" (numeral [5; 0; 0]
                 (String "." (numeral [2; 5] EmptyString)))) "$"
  = round_double false
      (Qmult (inject_Z (numeral_value ([5; 0; 0] ++ [2; 5])))
             (Qpower 10%Q (- Z.of_nat (length [2; 5])))).
Proof.
  assert ([5; 0; 0] <> @nil Z) as H0 by discriminate.
  assert (Forall (fun d => 0 <= d <= 9) [5; 0; 0]) as H1
    by (repeat constructor; lia).
  assert (Forall (fun d => 0 <= d <= 9) [2; 5]) as H2
    by (repeat constructor; lia).
  assert (is_digit "$" = false) as H3 by reflexivity.
  assert ("$"%char <> "."%char) as H4 by discriminate.
  split; [exact H0|]. split; [exact H1|]. split; [exact H2|].
  split; [exact H3|]. split; [exact H4|].
  exact (strToDouble_numeral "$" [5; 0; 0] [2; 5] H0 H1 H2 H3 H4).
Defined.

Example numeral_amount :
  String "$" (numeral [5; 0; 0] (String "." (numeral [2; 5] EmptyString)))
  = "$500.25" /\
  strToDouble "$500.25" "$" = Finite (2001 # 4).
Proof. split; reflexivity. Qed.

(** Amounts that no double holds: a tenth is rounded to the nearest
    multiple of [2^-55], a number of 310 digits becomes infinity, one below
    the least double becomes zero, and the largest double is the last one
    before infinity. *)
Example strToDouble_rounds :
  strToDouble "$0.1" "$" = Finite (3602879701896397 # 36028797018963968) /\
  strToDouble "$1e309" "$" = Infinity false /\
  strToDouble "$-1e309" "$" = Infinity true /\
  strToDouble "$1e-400" "$" = Finite 0 /\
  strToDouble "$-1e-400" "$" = MinusZero /\
  strToDouble "$9007199254740993" "$" = Finite 9007199254740992 /\
  strToDouble "$1.7976931348623157e308" "$"
  = Finite (inject_Z ((2 ^ 53 - 1) * 2 ^ 971)) /\
  strToDouble "$1.7976931348623159e308" "$" = Infinity false /\
  strToDouble "$5e-324" "$" = Finite (1 # Pos.pow 2 1074).
Proof. repeat split; vm_compute; reflexivity. Qed.

(** ** The records loadBids returns *)

Section loader_properties.
Context {P : csv.Parser}.

Lemma read_row_Return (file : csv.File) (i : Z) (b : Bid) :
  read_row file i = csv.Return b ->
  csv.cell file i 1 = csv.Return (bidId b) /\
  csv.cell file i 0 = csv.Return (title b) /\
  csv.cell file i 8 = csv.Return (fund b) /\
  exists a, csv.cell file i 4 = csv.Return a /\ amount b = strToDouble a "$".
Proof.
  unfold read_row.
  destruct (csv.cell file i 1) as [id|]; [|done].
  destruct (csv.cell file i 0) as [t|]; [|done].
  destruct (csv.cell file i 8) as [f|]; [|done].
  destruct (csv.cell file i 4) as [a|]; [|done].
  intros [= <-]. simpl. repeat split; try done. by exists a.
Qed.

Lemma read_row_Throw (file : csv.File) (i : Z) (e : csv.Error) :
  read_row file i = csv.Throw e ->
  exists k, k ∈ [1; 0; 8; 4] /\ csv.cell file i k = csv.Throw e.
Proof.
  unfold read_row.
  destruct (csv.cell file i 1) as [id|e1] eqn:H1;
    [|intros [= <-]; exists 1; split; [rewrite !elem_of_cons; lia|done]].
  destruct (csv.cell file i 0) as [t|e0] eqn:H0;
    [|intros [= <-]; exists 0; split; [rewrite !elem_of_cons; lia|done]].
  destruct (csv.cell file i 8) as [f|e8] eqn:H8;
    [|intros [= <-]; exists 8; split; [rewrite !elem_of_cons; lia|done]].
  destruct (csv.cell file i 4) as [a|e4] eqn:H4;
    [done|intros [= <-]; exists 4; split; [rewrite !elem_of_cons; lia|done]].
Qed.

(** X9.  When the parser is constructed, [loadBids] returns a vector with
    at most one record per row, in the order of the rows: record [j] has the
    id of column 1 of row [j], the title of column 0, the fund of column 8,
    and as amount column 4 converted with the dollar sign stripped. *)
Theorem loadBids_records (csvPath : string) (file : csv.File) :
  csv.new csvPath = csv.Return file ->
  exists rows, (loadBids csvPath).2 = csv.Return rows /\
    (length rows <= Z.to_nat (csv.rowCount file))%nat /\
    forall j b, rows !! j = Some b ->
      csv.cell file (Z.of_nat j) 1 = csv.Return (bidId b) /\
      csv.cell file (Z.of_nat j) 0 = csv.Return (title b) /\
      csv.cell file (Z.of_nat j) 8 = csv.Return (fund b) /\
      exists a, csv.cell file (Z.of_nat j) 4 = csv.Return a /\
        amount b = strToDouble a "$".
Proof.
  intros Hnew.
  destruct (loadBids_rows csvPath file Hnew) as (rows & Hrows & Hend).
  exists rows. split; [|split].
  - by destruct Hend as [[_ ->]|(_ & e & _ & ->)].
  - destruct Hend as [[-> _]|(? & _)]; lia.
  - intros j b Hb. by apply read_row_Return, Hrows.
Qed.

(** X10.  When the parser is constructed, [loadBids] either reads every
    row and writes nothing but its first line, or stops at the first row of
    which one of the cells 1, 0, 8, 4 throws: it then writes the message of
    that error to [cerr] and returns the records of the rows in front. *)
Theorem loadBids_reports (csvPath : string) (file : csv.File) :
  csv.new csvPath = csv.Return file ->
  exists rows, (loadBids csvPath).2 = csv.Return rows /\
    ((length rows = Z.to_nat (csv.rowCount file) /\
      (loadBids csvPath).1 = [Cout ("Loading CSV file " ++ csvPath)]) \/
     ((length rows < Z.to_nat (csv.rowCount file))%nat /\
      exists e k, k ∈ [1; 0; 8; 4] /\
        csv.cell file (Z.of_nat (length rows)) k = csv.Throw e /\
        (loadBids csvPath).1
        = [Cout ("Loading CSV file " ++ csvPath);
           Cerr ("Error loading CSV: " ++ csv.what e)])).
Proof.
  intros Hnew.
  destruct (loadBids_rows csvPath file Hnew) as (rows & Hrows & Hend).
  exists rows. destruct Hend as [[Hl ->]|(Hl & e & He & ->)].
  - split; [done|]. by left.
  - split; [done|]. right. split; [done|].
    destruct (read_row_Throw _ _ _ He) as (k & Hk & Hcell). by exists e, k.
Qed.

(** X11.  A file without rows loads as the empty vector, and nothing is
    written to [cerr]. *)
Theorem loadBids_no_rows (csvPath : string) (file : csv.File) :
  csv.new csvPath = csv.Return file -> csv.rowCount file <= 0 ->
  loadBids csvPath = ([Cout ("Loading CSV file " ++ csvPath)], csv.Return []).
Proof.
  intros Hnew Hcount. unfold loadBids. rewrite Hnew.
  by replace (Z.to_nat (csv.rowCount file)) with 0%nat by lia.
Qed.

End loader_properties.

Lemma loadBids_records_witness :
  csv.new (Parser := example_parser) "short.csv" = csv.Return short_file /\
  exists rows,
    (loadBids (P := example_parser) "short.csv").2 = csv.Return rows /\
    (length rows
     <= Z.to_nat (csv.rowCount (Parser := example_parser) short_file))%nat /\
    forall j b, rows !! j = Some b ->
      csv.cell (Parser := example_parser) short_file (Z.of_nat j) 1
      = csv.Return (bidId b) /\
      csv.cell (Parser := example_parser) short_file (Z.of_nat j) 0
      = csv.Return (title b) /\
      csv.cell (Parser := example_parser) short_file (Z.of_nat j) 8
      = csv.Return (fund b) /\
      exists a,
        csv.cell (Parser := example_parser) short_file (Z.of_nat j) 4
        = csv.Return a /\
        amount b = strToDouble a "$".
Proof.
  assert (csv.new (Parser := example_parser) "short.csv"
          = csv.Return short_file) as H by reflexivity.
  split; [exact H|].
  exact (loadBids_records (P := example_parser) "short.csv" short_file H).
Defined.

Lemma loadBids_reports_witness :
  csv.new (Parser := example_parser) "short.csv" = csv.Return short_file /\
  exists rows,
    (loadBids (P := example_parser) "short.csv").2 = csv.Return rows /\
    ((length rows
      = Z.to_nat (csv.rowCount (Parser := example_parser) short_file) /\
      (loadBids (P := example_parser) "short.csv").1
      = [Cout ("Loading CSV file " ++ "short.csv")]) \/
     ((length rows
       < Z.to_nat (csv.rowCount (Parser := example_parser) short_file))%nat /\
      exists e k, k ∈ [1; 0; 8; 4] /\
        csv.cell (Parser := example_parser) short_file
          (Z.of_nat (length rows)) k = csv.Throw e /\
        (loadBids (P := example_parser) "short.csv").1
        = [Cout ("Loading CSV file " ++ "short.csv");
           Cerr ("Error loading CSV: " ++ csv.what e)])).
Proof.
  assert (csv.new (Parser := example_parser) "short.csv"
          = csv.Return short_file) as H by reflexivity.
  split; [exact H|].
  exact (loadBids_reports (P := example_parser) "short.csv" short_file H).
Defined.

Lemma loadBids_no_rows_witness :
  csv.new (Parser := example_parser) "empty.csv" = csv.Return empty_file /\
  csv.rowCount (Parser := example_parser) empty_file <= 0 /\
  loadBids (P := example_parser) "empty.csv"
  = ([Cout ("Loading CSV file " ++ "empty.csv")], csv.Return []).
Proof.
  assert (csv.new (Parser := example_parser) "empty.csv"
          = csv.Return empty_file) as H1 by reflexivity.
  assert (csv.rowCount (Parser := example_parser) empty_file <= 0) as H2
    by (vm_compute; discriminate).
  split; [exact H1|]. split; [exact H2|].
  exact (loadBids_no_rows (P := example_parser) "empty.csv" empty_file H1 H2).
Defined.

(** ** The driver *)

Lemma display_rows_from (front bids : list Bid) :
  display_rows (length bids) (front ++ bids) (Z.of_nat (length front))
  = Ok (displayBid <$> bids).
Proof.
  revert front. induction bids as [|b bids IH]; intros front; [done|].
  cbn [display_rows length].
  assert (at_ (front ++ b :: bids) (Z.of_nat (length front)) = Ok b) as ->.
  { apply at_of_nat. by rewrite list_lookup_middle. }
  simpl. specialize (IH (front ++ [b])).
  rewrite <- app_assoc, length_app in IH. simpl in IH.
  replace (Z.of_nat (length front) + 1) with (Z.of_nat (length front + 1))
    by lia.
  by rewrite IH.
Qed.

Lemma display_rows_all (bids : list Bid) :
  display_rows (length bids) bids 0 = Ok (displayBid <$> bids).
Proof. exact (display_rows_from [] bids). Qed.

Section driver_properties.
Context {P : csv.Parser}.
Variable clock : nat -> Z.
Variable CLOCKS_PER_SEC : Z.

(** X12.  Choice 2 writes one statement per record, in the order the vector
    has at that moment, then an empty line; it changes neither the vector
    nor the clock. *)
Theorem switch_display (fuel : nat) (csvPath : string) (bids : list Bid)
    (k : nat) :
  switch clock CLOCKS_PER_SEC fuel csvPath 2 bids k
  = ((displayBid <$> bids) ++ [Stmt [Endl]], Ok (csv.Return (bids, k))).
Proof.
  unfold switch. simpl.
  by rewrite display_rows_all.
Qed.

Lemma switch_other (fuel : nat) (csvPath : string) (c : Z) (bids : list Bid)
    (k : nat) :
  c <> 1 -> c <> 2 -> c <> 3 -> c <> 4 ->
  switch clock CLOCKS_PER_SEC fuel csvPath c bids k
  = ([], Ok (csv.Return (bids, k))).
Proof.
  intros H1 H2 H3 H4. unfold switch.
  by rewrite !(proj2 (Z.eqb_neq _ _)) by done.
Qed.

Lemma main_loop_exit (fuel : nat) (csvPath : string) (bids : list Bid)
    (cin : istream) (k : nat) :
  main_loop clock CLOCKS_PER_SEC fuel csvPath 9 bids cin k
  = (good_bye, Ok (csv.Return 0)).
Proof. by destruct fuel. Qed.

Lemma main_loop_step (fuel : nat) (csvPath : string) (choice : Z)
    (bids : list Bid) (cin : istream) (k : nat) :
  choice <> 9 ->
  main_loop clock CLOCKS_PER_SEC (S fuel) csvPath choice bids cin k
  = let '(choice', cin') := extract cin choice in
    match switch clock CLOCKS_PER_SEC fuel csvPath choice' bids k with
    | (out, Ok (csv.Return (bids', k'))) =>
        let '(rest, r) :=
          main_loop clock CLOCKS_PER_SEC fuel csvPath choice' bids' cin' k' in
        (menu ++ out ++ rest, r)
    | (out, Ok (csv.Throw e)) => (menu ++ out, Ok (csv.Throw e))
    | (out, OutOfBounds) => (menu ++ out, OutOfBounds)
    | (out, OutOfFuel) => (menu ++ out, OutOfFuel)
    end.
Proof.
  intros Hne. cbn [main_loop]. by rewrite (proj2 (Z.eqb_neq _ _) Hne).
Qed.

Lemma main_loop_other (csvPath : string) (cs : list Z) (rest : list extraction) :
  forall (fuel : nat) (choice : Z) (bids : list Bid) (k : nat),
  choice <> 9 -> Forall other_choice cs -> (length cs < fuel)%nat ->
  main_loop clock CLOCKS_PER_SEC fuel csvPath choice bids
    (Good ((Value <$> cs) ++ Value 9 :: rest)) k
  = (concat (replicate (S (length cs)) menu) ++ good_bye, Ok (csv.Return 0)).
Proof.
  induction cs as [|c cs IH]; intros fuel choice bids k Hne Hcs Hfuel;
    (destruct fuel as [|fuel]; [simpl in Hfuel; lia|]);
    rewrite main_loop_step by done; cbn [fmap list_fmap app extract].
  - rewrite switch_other by lia. rewrite main_loop_exit.
    cbn [replicate concat length]. by rewrite !app_nil_r.
  - apply Forall_cons in Hcs as [(H1 & H2 & H3 & H4 & H9) Hcs].
    rewrite switch_other by done.
    rewrite (IH fuel c bids k) by (try done; simpl in Hfuel; lia).
    cbn [app length]. by rewrite (replicate_S (S (length cs))), concat_cons,
      <- app_assoc.
Qed.

(** X13.  A choice other than 1, 2, 3, 4 and 9 does nothing: after any
    number of them and then a 9, [main] has written the menu once per choice
    and the farewell, and returns 0. *)
Theorem main_other_choices (fuel : nat) (argv : list string) (cs : list Z)
    (rest : list extraction) :
  Forall other_choice cs -> (length cs < fuel)%nat ->
  main clock CLOCKS_PER_SEC fuel argv (Good ((Value <$> cs) ++ Value 9 :: rest))
  = (concat (replicate (S (length cs)) menu) ++ good_bye, Ok (csv.Return 0)).
Proof. intros Hcs Hfuel. unfold main. by apply main_loop_other. Qed.

Lemma extract_no_exit (cin : istream) (choice : Z) :
  choice <> 9 -> no_exit cin ->
  (extract cin choice).1 <> 9 /\ no_exit (extract cin choice).2.
Proof.
  intros Hne Hcin. destruct cin as [[|[n|[n|]] pending]|]; simpl; try done.
  - apply Forall_cons in Hcin as [[Hn _] Hcin]. split; [congruence|done].
  - apply Forall_cons in Hcin as [[_ Hn] Hcin]. split; [congruence|done].
Qed.

Lemma main_loop_needs_nine (csvPath : string) (code : Z) (fuel : nat) :
  forall (choice : Z) (bids : list Bid) (cin : istream) (k : nat),
  choice <> 9 -> no_exit cin ->
  (main_loop clock CLOCKS_PER_SEC fuel csvPath choice bids cin k).2
  <> Ok (csv.Return code).
Proof.
  induction fuel as [|fuel IH]; intros choice bids cin k Hne Hcin.
  - simpl. by rewrite (proj2 (Z.eqb_neq _ _) Hne).
  - rewrite main_loop_step by done.
    destruct (extract_no_exit cin choice Hne Hcin) as [Hne' Hcin'].
    destruct (extract cin choice) as [choice' cin']. simpl in Hne', Hcin'.
    destruct (switch clock CLOCKS_PER_SEC fuel csvPath choice' bids k)
      as [out [[[bids' k']|e]| |]]; try done.
    specialize (IH choice' bids' cin' k' Hne' Hcin').
    by destruct (main_loop clock CLOCKS_PER_SEC fuel csvPath choice' bids'
                   cin' k').
Qed.

(** X14.  The only way out of the loop is a 9: on an input that never
    brings one, nor a failure that stores one, [main] does not return,
    whatever the fuel.  That covers the input that ends, or that holds
    something that is no integer: the stream then fails and [choice] stays
    what it is for good. *)
Theorem main_needs_nine (fuel : nat) (argv : list string) (cin : istream)
    (code : Z) :
  no_exit cin ->
  (main clock CLOCKS_PER_SEC fuel argv cin).2 <> Ok (csv.Return code).
Proof. intros Hcin. unfold main. by apply main_loop_needs_nine. Qed.

Lemma main_loop_failed (csvPath : string) (choice : Z) (fuel : nat) :
  forall (bids : list Bid) (k : nat),
  other_choice choice ->
  main_loop clock CLOCKS_PER_SEC fuel csvPath choice bids Failed k
  = (concat (replicate fuel menu), OutOfFuel).
Proof.
  intros bids k Hc. pose proof Hc as (H1 & H2 & H3 & H4 & H9).
  induction fuel as [|fuel IH].
  - simpl. by rewrite (proj2 (Z.eqb_neq _ _) H9).
  - rewrite main_loop_step by done. cbn [extract].
    rewrite switch_other by done. rewrite IH.
    by rewrite replicate_S, concat_cons.
Qed.

Lemma main_loop_forever (csvPath : string) (cs : list Z) :
  forall (fuel : nat) (choice : Z) (bids : list Bid) (k : nat),
  other_choice choice -> Forall other_choice cs ->
  main_loop clock CLOCKS_PER_SEC fuel csvPath choice bids
    (Good (Value <$> cs)) k
  = (concat (replicate fuel menu), OutOfFuel).
Proof.
  induction cs as [|c cs IH]; intros fuel choice bids k Hc Hcs;
    pose proof Hc as (H1 & H2 & H3 & H4 & H9);
    (destruct fuel as [|fuel];
     [simpl; by rewrite (proj2 (Z.eqb_neq _ _) H9)|]);
    rewrite main_loop_step by done; cbn [fmap list_fmap extract].
  - rewrite switch_other by done. rewrite main_loop_failed by done.
    by rewrite replicate_S, concat_cons.
  - apply Forall_cons in Hcs as [Hc' Hcs].
    pose proof Hc' as (H1' & H2' & H3' & H4' & H9').
    rewrite switch_other by done. rewrite IH by done.
    by rewrite replicate_S, concat_cons.
Qed.

(** X15.  When the input ends after choices that are none of 1, 2, 3, 4
    and 9 (or has nothing at all), [main] neither returns nor fails: it
    writes the menu again and again, as often as the fuel lets it. *)
Theorem main_runs_forever (fuel : nat) (argv : list string) (cs : list Z) :
  Forall other_choice cs ->
  main clock CLOCKS_PER_SEC fuel argv (Good (Value <$> cs))
  = (concat (replicate fuel menu), OutOfFuel).
Proof.
  intros Hcs. unfold main. apply main_loop_forever; [|done].
  unfold other_choice. lia.
Qed.

(** X16.  Choice 1 on a path for which the constructor of the parser throws
    ends the program: the exception leaves [loadBids] and [main], after the
    menu and the first line of the loader, and nothing of what follows on the
    input is read. *)
Theorem main_load_throws (fuel : nat) (argv : list string)
    (rest : list extraction) (e : csv.Error) :
  csv.new (main_csvPath argv) = csv.Throw e ->
  main clock CLOCKS_PER_SEC (S fuel) argv (Good (Value 1 :: rest))
  = (menu ++ [Loader (Cout ("Loading CSV file " ++ main_csvPath argv))],
     Ok (csv.Throw e)).
Proof.
  intros Hnew. unfold main. rewrite main_loop_step by done.
  cbn [extract]. unfold switch, loadBids. by rewrite Hnew.
Qed.

(** X17.  Before any load the two sorts differ: choice 3 reaches the access
    outside the empty vector, and [main] ends in [OutOfBounds] after the first
    menu, whatever its arguments and whatever follows on the input; choice 4
    does no harm, it reports 0 bids sorted and the loop goes on. *)
Theorem main_sort_before_load (fuel : nat) (argv : list string)
    (rest : list extraction) :
  main clock CLOCKS_PER_SEC (S (S (S fuel))) argv (Good (Value 3 :: rest))
  = (menu, OutOfBounds) /\
  main clock CLOCKS_PER_SEC (S (S fuel)) argv (Good (Value 4 :: Value 9 :: rest))
  = (menu ++ report CLOCKS_PER_SEC 0 " bids sorted" (clock 1%nat - clock 0%nat)
     ++ menu ++ good_bye,
     Ok (csv.Return 0)).
Proof.
  unfold main. split.
  - rewrite main_loop_step by done. cbn [extract].
    unfold switch. simpl Z.eqb. cbv iota. by rewrite selectionSort_empty.
  - rewrite main_loop_step by done. cbn [extract].
    unfold switch. simpl Z.eqb. cbv iota.
    assert (quickSort_all (S fuel) [] = Ok []) as -> by reflexivity.
    rewrite main_loop_step by done. cbn [extract].
    rewrite switch_other by done. rewrite main_loop_exit.
    by rewrite app_nil_l.
Qed.

(** X19.  When the parser is constructed, choice 1 always comes back, also
    when a row throws, and the vector afterwards is the one [loadBids]
    returned: the records held before are dropped, not added to. *)
Theorem switch_load_replaces (fuel : nat) (csvPath : string)
    (file : csv.File) (bids : list Bid) (k : nat) :
  csv.new csvPath = csv.Return file ->
  exists lines rows, loadBids csvPath = (lines, csv.Return rows) /\
    switch clock CLOCKS_PER_SEC fuel csvPath 1 bids k
    = ((Loader <$> lines)
       ++ report CLOCKS_PER_SEC (size rows) " bids read"
            (clock (S k) - clock k),
       Ok (csv.Return (rows, S (S k)))).
Proof.
  intros Hnew.
  destruct (loadBids_rows csvPath file Hnew) as (rows & _ & Hend).
  unfold switch. simpl Z.eqb. cbv iota.
  destruct Hend as [[_ ->]|(_ & e & _ & ->)]; eauto.
Qed.

(** X18.  Only choice 1 changes which records the vector holds: after any
    other choice that comes back the vector is a permutation of what it was,
    and after choice 3 or 4 it is ascending by title. *)
Theorem switch_keeps_records (fuel : nat) (csvPath : string) (choice : Z)
    (bids bids' : list Bid) (k k' : nat) (out : list written) :
  choice <> 1 -> size bids <= INT_MAX ->
  switch clock CLOCKS_PER_SEC fuel csvPath choice bids k
  = (out, Ok (csv.Return (bids', k'))) ->
  bids' ≡ₚ bids /\ (choice = 3 \/ choice = 4 -> ascending bids').
Proof.
  intros H1 HN. unfold switch. rewrite (proj2 (Z.eqb_neq _ _) H1).
  destruct (Z.eqb_spec choice 2) as [->|H2].
  { rewrite display_rows_all. intros [= _ <- _]. split; [done|lia]. }
  destruct (Z.eqb_spec choice 3) as [->|H3].
  { destruct (selectionSort fuel bids) as [s| |] eqn:Hs; [|done..].
    intros [= _ <- _].
    assert (1 <= size bids) as Hne.
    { destruct bids; [by apply selectionSort_empty_not_Ok in Hs|].
      unfold size. simpl length. lia. }
    destruct (selectionSort_spec (Z.to_nat (size bids + 1)) bids)
      as (s' & Hs' & _ & Hperm & Hasc); [lia|lia|].
    by rewrite (selectionSort_fuel_eq _ _ _ _ _ Hs Hs'). }
  destruct (Z.eqb_spec choice 4) as [->|H4].
  { destruct (quickSort_all fuel bids) as [q| |] eqn:Hq; [|done..].
    intros [= _ <- _].
    by destruct (quickSort_all_Ok fuel bids q HN Hq) as (_ & Hperm & Hasc). }
  intros [= _ <- _]. split; [done|lia].
Qed.

End driver_properties.

Lemma main_other_choices_witness :
  Forall other_choice [5; 0] /\ (length [5; 0] < 3)%nat /\
  main (P := example_parser) example_clock 1000000 3 ["prog"]
    (Good ((Value <$> [5; 0]) ++ Value 9 :: [Value 1]))
  = (concat (replicate (S (length [5; 0])) menu) ++ good_bye,
     Ok (csv.Return 0)).
Proof.
  assert (Forall other_choice [5; 0]) as H1
    by (repeat constructor; discriminate).
  assert (length [5; 0] < 3)%nat as H2 by (simpl; lia).
  split; [exact H1|]. split; [exact H2|].
  exact (main_other_choices (P := example_parser) example_clock 1000000 3
           ["prog"] [5; 0] [Value 1] H1 H2).
Defined.

Lemma main_needs_nine_witness :
  no_exit (Good [Value 2; Failure (Some 0)]) /\
  (main (P := example_parser) example_clock 1000000 7 ["prog"]
     (Good [Value 2; Failure (Some 0)])).2
  <> Ok (csv.Return 0).
Proof.
  assert (no_exit (Good [Value 2; Failure (Some 0)])) as H
    by (repeat constructor; discriminate).
  split; [exact H|].
  exact (main_needs_nine (P := example_parser) example_clock 1000000 7
           ["prog"] (Good [Value 2; Failure (Some 0)]) 0 H).
Defined.

Lemma main_runs_forever_witness :
  Forall other_choice [5] /\
  main (P := example_parser) example_clock 1000000 4 ["prog"]
    (Good (Value <$> [5]))
  = (concat (replicate 4 menu), OutOfFuel).
Proof.
  assert (Forall other_choice [5]) as H by (repeat constructor; discriminate).
  split; [exact H|].
  exact (main_runs_forever (P := example_parser) example_clock 1000000 4
           ["prog"] [5] H).
Defined.

Lemma main_load_throws_witness :
  csv.new (Parser := example_parser) (main_csvPath ["prog"])
  = csv.Throw (csv.mkError "Failed to open eBid_Monthly_Sales.csv") /\
  main (P := example_parser) example_clock 1000000 (S 2) ["prog"]
    (Good (Value 1 :: [Value 2]))
  = (menu ++ [Loader (Cout ("Loading CSV file " ++ main_csvPath ["prog"]))],
     Ok (csv.Throw (csv.mkError "Failed to open eBid_Monthly_Sales.csv"))).
Proof.
  assert (csv.new (Parser := example_parser) (main_csvPath ["prog"])
          = csv.Throw (csv.mkError "Failed to open eBid_Monthly_Sales.csv"))
    as H by reflexivity.
  split; [exact H|].
  exact (main_load_throws (P := example_parser) example_clock 1000000 2
           ["prog"] [Value 2] _ H).
Defined.

Lemma switch_keeps_records_witness :
  3 <> 1 /\ size [bridge; arch] <= INT_MAX /\
  switch (P := example_parser) example_clock 1000000 5 "bids.csv" 3
    [bridge; arch] 0
  = (report 1000000 2 " bids sorted" 250, Ok (csv.Return ([arch; bridge], 2%nat))) /\
  ([arch; bridge] ≡ₚ [bridge; arch] /\
   (3 = 3 \/ 3 = 4 -> ascending [arch; bridge])).
Proof.
  assert (3 <> 1) as H1 by discriminate.
  assert (size [bridge; arch] <= INT_MAX) as H2 by (vm_compute; discriminate).
  assert (switch (P := example_parser) example_clock 1000000 5 "bids.csv" 3
            [bridge; arch] 0
          = (report 1000000 2 " bids sorted" 250,
             Ok (csv.Return ([arch; bridge], 2%nat)))) as H3 by reflexivity.
  split; [exact H1|]. split; [exact H2|]. split; [exact H3|].
  exact (switch_keeps_records (P := example_parser) example_clock 1000000 5
           "bids.csv" 3 [bridge; arch] [arch; bridge] 0 2 _ H1 H2 H3).
Defined.

(** A session: load, display, quick sort, display, a choice that is none,
    and exit. *)
Example session :
  (main (P := example_parser) example_clock 1000000 7 ["prog"; "bids.csv"]
     (Good [Value 1; Value 2; Value 4; Value 2; Value 7; Value 9])).2
  = Ok (csv.Return 0).
Proof. reflexivity. Qed.

Lemma switch_load_replaces_witness :
  csv.new (Parser := example_parser) "short.csv" = csv.Return short_file /\
  exists lines rows,
    loadBids (P := example_parser) "short.csv" = (lines, csv.Return rows) /\
    switch (P := example_parser) example_clock 1000000 5 "short.csv" 1
      [arch; arch] 0
    = ((Loader <$> lines)
       ++ report 1000000 (size rows) " bids read"
            (example_clock 1 - example_clock 0),
       Ok (csv.Return (rows, 2%nat))).
Proof.
  assert (csv.new (Parser := example_parser) "short.csv"
          = csv.Return short_file) as H by reflexivity.
  split; [exact H|].
  exact (switch_load_replaces (P := example_parser) example_clock 1000000 5
           "short.csv" short_file [arch; arch] 0 H).
Defined.
